(** * evt-parser: the legacy Windows Event Log (EVT) decoder

    A shallow embedding of [src/evt_parser/parser.py] (header decoding,
    field extraction, the record walker in its eager and lazy forms) and of
    [repair_dirty_evt] from [src/evt_parser/utils.py], followed by the
    properties the specification states about them.

    Conventions of the embedding:
    - Python [bytes] (and a read-only [mmap]) are [list byte]; Python [int]
      is [Z]; slices, indexing, [find], [int.from_bytes], [int.to_bytes]
      and [struct.unpack] follow CPython for every argument, including
      negative indices and short slices.
    - A Python function that can raise returns in the [result] monad;
      [Raise e] is the exception leaving the function.  Loops are
      unrolled by a fuel argument, [OutOfFuel] is a third outcome that no
      [except] clause catches; the theorems show it never occurs.
    - ASCII-only text built by the program (messages, SIDs, type labels) is
      a [string]; text decoded from UTF-16 is a list of code points.
    - A [datetime] built by [datetime.fromtimestamp(t, tz=utc)] is
      represented by [t], the number of seconds since the epoch.
    - A function that opens one file takes the files as a finite map from
      directory entries to contents, for regular files that can be read;
      [repair_dirty_evt], which is given two paths, runs on a [disk], which
      also tells which entries name one file. *)

From Stdlib Require Import ZArith Lia List String Ascii DecimalString.
From Stdlib Require Strings.Byte HexadecimalString.
From stdpp Require Import base option list gmap strings.

Local Open Scope Z_scope.

Abbreviation byte := Byte.byte.
Abbreviation bytes := (list Byte.byte).

#[global] Instance byte_eq_dec : EqDecision byte := Byte.byte_eq_dec.

(** ** Exceptions and the result monad *)

Inductive exn : Type :=
  | FileValidationError (msg : string)
  | StructError (msg : string)
  | IndexError (msg : string)
  | OverflowError (msg : string)
  | UnicodeDecodeError (msg : string)
  | OSError (msg : string).

(** [str(e)] *)
Definition exn_str (e : exn) : string :=
  match e with
  | FileValidationError m | StructError m | IndexError m
  | OverflowError m | UnicodeDecodeError m | OSError m => m
  end.

(** [isinstance(e, OSError)] *)
Definition is_OSError (e : exn) : bool :=
  match e with OSError _ => true | _ => false end.

Inductive result (A : Type) : Type :=
  | Ok (a : A)
  | Raise (e : exn)
  | OutOfFuel.
Arguments Ok {A} a.
Arguments Raise {A} e.
Arguments OutOfFuel {A}.

#[global] Instance result_ret : MRet result := fun A a => Ok a.
#[global] Instance result_bind : MBind result := fun A B f m =>
  match m with
  | Ok a => f a
  | Raise e => Raise e
  | OutOfFuel => OutOfFuel
  end.
#[global] Instance result_fmap : FMap result := fun A B f m =>
  match m with
  | Ok a => Ok (f a)
  | Raise e => Raise e
  | OutOfFuel => OutOfFuel
  end.

(** ** Python primitives *)

Module Py.

Definition byte_val (b : byte) : Z := Z.of_N (Byte.to_N b).

(** The byte whose value is [z mod 256]. *)
Definition byte_of_Z (z : Z) : byte :=
  default Byte.x00 (Byte.of_N (Z.to_N (z mod 256))).

Definition len {A} (l : list A) : Z := Z.of_nat (length l).

(** [str(n)] for an [int]. *)
Definition str_int (n : Z) : string := NilZero.string_of_int (Z.to_int n).

(** How a slice bound is clamped: a negative bound counts from the end. *)
Definition clamp (n i : Z) : Z :=
  if decide (i < 0) then Z.max (i + n) 0 else Z.min i n.

(** [data[a:b]] *)
Definition slice {A} (data : list A) (a b : Z) : list A :=
  let a' := clamp (len data) a in
  let b' := clamp (len data) b in
  take (Z.to_nat (b' - a')) (drop (Z.to_nat a') data).

(** [data[:b]] *)
Definition slice_to {A} (data : list A) (b : Z) : list A := slice data 0 b.

(** [data[i]] *)
Definition getitem (data : bytes) (i : Z) : result byte :=
  let j := if decide (i < 0) then i + len data else i in
  if decide (j < 0) then Raise (IndexError "index out of range")
  else match data !! Z.to_nat j with
       | Some b => Ok b
       | None => Raise (IndexError "index out of range")
       end.

(** [sub] is a prefix of [l]. *)
Fixpoint starts_with (sub l : bytes) : bool :=
  match sub, l with
  | [], _ => true
  | _ :: _, [] => false
  | x :: sub', y :: l' => bool_decide (x = y) && starts_with sub' l'
  end.

(** The search of [find] over the suffix [l] that starts at index [i]. *)
Fixpoint find_in (sub l : bytes) (i : Z) : Z :=
  if starts_with sub l then i
  else match l with
       | [] => -1
       | _ :: l' => find_in sub l' (i + 1)
       end.

(** [data.find(sub, start)] *)
Definition find (data sub : bytes) (start : Z) : Z :=
  let s := if decide (start < 0) then Z.max (start + len data) 0 else start in
  if decide (s > len data) then -1
  else find_in sub (drop (Z.to_nat s) data) s.

(** [int.from_bytes(bs, "little")] *)
Fixpoint int_from_bytes_little (bs : bytes) : Z :=
  match bs with
  | [] => 0
  | b :: bs' => byte_val b + 256 * int_from_bytes_little bs'
  end.

(** [int.from_bytes(bs, "big")] *)
Definition int_from_bytes_big (bs : bytes) : Z :=
  int_from_bytes_little (rev bs).

(** The [n] low bytes of [v], least significant first. *)
Fixpoint le_bytes (n : nat) (v : Z) : bytes :=
  match n with
  | O => []
  | S n' => byte_of_Z v :: le_bytes n' (v / 256)
  end.

(** [v.to_bytes(4, byteorder="little")] *)
Definition int_to_bytes4 (v : Z) : result bytes :=
  if decide (v < 0) then
    Raise (OverflowError "can't convert negative int to unsigned")
  else if decide (2 ^ 32 <= v) then
    Raise (OverflowError "int too big to convert")
  else Ok (le_bytes 4 v).

(** [struct.unpack("<I", bs)[0]] *)
Definition unpack_I (bs : bytes) : result Z :=
  if decide (length bs = 4%nat) then Ok (int_from_bytes_little bs)
  else Raise (StructError "unpack requires a buffer of 4 bytes").

(** [struct.unpack("<H", bs)[0]] *)
Definition unpack_H (bs : bytes) : result Z :=
  if decide (length bs = 2%nat) then Ok (int_from_bytes_little bs)
  else Raise (StructError "unpack requires a buffer of 2 bytes").

Definition hex_digit (n : Z) : string :=
  String.substring (Z.to_nat n) 1 "0123456789abcdef".

(** [bs.hex()] *)
Definition hex (bs : bytes) : string :=
  String.concat EmptyString
    (map (fun b => hex_digit (byte_val b / 16) +:+ hex_digit (byte_val b mod 16)) bs).

(** *** UTF-16 *)

(** Python [str] holding decoded text: its code points. *)
Definition unicode := list Z.

(** The code points of an ASCII literal. *)
Definition unicode_of_string (s : string) : unicode :=
  map (fun c => Z.of_N (N_of_ascii c)) (list_ascii_of_string s).

Definition is_surrogate (u : Z) : bool := bool_decide (55296 <= u <= 57343).
Definition is_high_surrogate (u : Z) : bool := bool_decide (55296 <= u <= 56319).
Definition is_low_surrogate (u : Z) : bool := bool_decide (56320 <= u <= 57343).
Definition join_surrogates (hi lo : Z) : Z :=
  65536 + (hi - 55296) * 1024 + (lo - 56320).
Definition code_unit (lo hi : byte) : Z := byte_val lo + 256 * byte_val hi.
Definition REPLACEMENT : Z := 65533.

(** [bs.decode("utf-16-le")]: any malformed unit raises. *)
Fixpoint decode_utf16le (bs : bytes) : result unicode :=
  match bs with
  | [] => Ok []
  | [_] => Raise (UnicodeDecodeError "truncated data")
  | lo :: hi :: rest =>
      let u := code_unit lo hi in
      if negb (is_surrogate u) then cons u <$> decode_utf16le rest
      else if negb (is_high_surrogate u) then
        Raise (UnicodeDecodeError "illegal encoding")
      else match rest with
           | lo2 :: hi2 :: rest' =>
               let u2 := code_unit lo2 hi2 in
               if is_low_surrogate u2
               then cons (join_surrogates u u2) <$> decode_utf16le rest'
               else Raise (UnicodeDecodeError "illegal UTF-16 surrogate")
           | _ => Raise (UnicodeDecodeError "unexpected end of data")
           end
  end.

(** [bs.decode("utf-16-le", errors="replace")]: each malformed span
    becomes one U+FFFD and decoding resumes after it. *)
Fixpoint decode_utf16le_replace (bs : bytes) : unicode :=
  match bs with
  | [] => []
  | [_] => [REPLACEMENT]
  | lo :: hi :: rest =>
      let u := code_unit lo hi in
      if negb (is_surrogate u) then u :: decode_utf16le_replace rest
      else if negb (is_high_surrogate u) then
        REPLACEMENT :: decode_utf16le_replace rest
      else match rest with
           | lo2 :: hi2 :: rest' =>
               let u2 := code_unit lo2 hi2 in
               if is_low_surrogate u2
               then join_surrogates u u2 :: decode_utf16le_replace rest'
               else REPLACEMENT :: decode_utf16le_replace rest
           | _ => [REPLACEMENT]
           end
  end.

End Py.

Import Py.

(** ** parser.py *)

(** *** Constants *)

Definition EVT_HEADER_SIZE : Z := 48.
Definition EVENTLOGRECORD_HEADER_SIZE : Z := 56.
(** [b"LfLe"] *)
Definition EVT_SIGNATURE : bytes := [Byte.x4c; Byte.x66; Byte.x4c; Byte.x65].
Definition EVT_SIGNATURE_OFFSET : Z := 4.
(** [bytes.fromhex("11111111222222223333333344444444")] *)
Definition EVT_EOF_SIGNATURE : bytes :=
  [Byte.x11; Byte.x11; Byte.x11; Byte.x11; Byte.x22; Byte.x22; Byte.x22; Byte.x22;
   Byte.x33; Byte.x33; Byte.x33; Byte.x33; Byte.x44; Byte.x44; Byte.x44; Byte.x44].

Definition EVENT_TYPE_MAP : gmap Z string :=
  {[ 1 := "error"%string; 2 := "warning"%string; 4 := "information"%string;
     8 := "audit_success"%string; 16 := "audit_failure"%string ]}.

(** *** Data classes *)

Record EvtHeader : Type := {
  header_size : Z;
  signature : bytes;
  major_version : Z;
  minor_version : Z;
  start_offset : Z;
  end_offset : Z;
  current_record_number : Z;
  oldest_record_number : Z;
  max_size : Z;
  flags : Z;
  retention : Z;
  header_size_copy : Z
}.

Definition is_dirty (h : EvtHeader) : bool := bool_decide (Z.land (flags h) 1 ≠ 0).
Definition is_wrapped (h : EvtHeader) : bool := bool_decide (Z.land (flags h) 2 ≠ 0).

Record EventRecord : Type := {
  record_number : Z;
  time_generated : option Z;
  time_written : option Z;
  event_id : Z;
  event_type : string;
  event_type_raw : Z;
  event_category : Z;
  source : unicode;
  computer_name : unicode;
  user_sid : option string;
  strings : list unicode;
  data : option bytes;
  raw_record : bytes
}.

(** [ParseResult]; [parse_duration_seconds], a wall-clock reading, is left
    out, and [source_file] is the path the file was opened under. *)
Record ParseResult : Type := {
  source_file : string;
  header : EvtHeader;
  records : list EventRecord;
  total_records : Z;
  valid_records : Z;
  parse_errors : Z;
  errors : list string
}.

(** The [success] property of [ParseResult]. *)
Definition success (r : ParseResult) : bool :=
  bool_decide (valid_records r > 0) || bool_decide (total_records r = 0).

(** *** Header *)

(** [repr] of a [bytes] object. *)
Definition quote_char (bs : bytes) : byte :=
  if bool_decide (Byte.x27 ∈ bs) && negb (bool_decide (Byte.x22 ∈ bs))
  then Byte.x22 else Byte.x27.
Definition char_of_byte (b : byte) : string := String (ascii_of_byte b) EmptyString.
Definition repr_byte (q b : byte) : string :=
  if bool_decide (b = q) || bool_decide (b = Byte.x5c) then "\" +:+ char_of_byte b
  else if bool_decide (b = Byte.x09) then "\t"
  else if bool_decide (b = Byte.x0a) then "\n"
  else if bool_decide (b = Byte.x0d) then "\r"
  else if bool_decide (byte_val b < 32) || bool_decide (byte_val b >= 127)
       then "\x" +:+ hex [b]
  else char_of_byte b.
Definition bytes_repr (bs : bytes) : string :=
  let q := quote_char bs in
  "b" +:+ char_of_byte q +:+ String.concat EmptyString (map (repr_byte q) bs)
      +:+ char_of_byte q.

(** [_parse_header] *)
Definition _parse_header (data : bytes) : result EvtHeader :=
  if decide (len data < EVT_HEADER_SIZE) then
    Raise (FileValidationError
             ("File too small for EVT header: " +:+ str_int (len data) +:+ " bytes"))
  else
    header_size ← unpack_I (slice data 0 4);
    let signature := slice data 4 8 in
    major_version ← unpack_I (slice data 8 12);
    minor_version ← unpack_I (slice data 12 16);
    start_offset ← unpack_I (slice data 16 20);
    end_offset ← unpack_I (slice data 20 24);
    current_record_number ← unpack_I (slice data 24 28);
    oldest_record_number ← unpack_I (slice data 28 32);
    max_size ← unpack_I (slice data 32 36);
    flags ← unpack_I (slice data 36 40);
    retention ← unpack_I (slice data 40 44);
    header_size_copy ← unpack_I (slice data 44 48);
    if decide (signature ≠ EVT_SIGNATURE) then
      Raise (FileValidationError
               ("Invalid EVT signature: " +:+ bytes_repr signature +:+
                ", expected " +:+ bytes_repr EVT_SIGNATURE))
    else
      Ok {| header_size := header_size; signature := signature;
            major_version := major_version; minor_version := minor_version;
            start_offset := start_offset; end_offset := end_offset;
            current_record_number := current_record_number;
            oldest_record_number := oldest_record_number;
            max_size := max_size; flags := flags; retention := retention;
            header_size_copy := header_size_copy |}.

(** [_unix_to_datetime]: zero is absent; for the 32-bit values it is called
    with, [datetime.fromtimestamp] returns, and the result is kept as the
    timestamp itself. *)
Definition _unix_to_datetime (timestamp : Z) : option Z :=
  if decide (timestamp = 0) then None else Some timestamp.

(** *** Field extraction *)

(** The [while] loop of [_read_null_terminated_utf16]: [limit] is
    [min(offset + max_len, len(data) - 1)], the result is the final [end]. *)
Fixpoint scan_terminator (fuel : nat) (data : bytes) (limit end_ : Z) : result Z :=
  if decide (end_ < limit) then
    match fuel with
    | O => OutOfFuel
    | S fuel' =>
        b0 ← getitem data end_;
        if decide (byte_val b0 = 0) then
          b1 ← getitem data (end_ + 1);
          if decide (byte_val b1 = 0) then Ok end_
          else scan_terminator fuel' data limit (end_ + 2)
        else scan_terminator fuel' data limit (end_ + 2)
    end
  else Ok end_.

(** [_read_null_terminated_utf16(data, offset, max_len)] *)
Definition _read_null_terminated_utf16 (data : bytes) (offset max_len : Z)
  : result (unicode * Z) :=
  end_ ← scan_terminator (S (length data)) data
           (Z.min (offset + max_len) (len data - 1)) offset;
  string ← match decode_utf16le (slice data offset end_) with
            | Raise (UnicodeDecodeError _) =>
                Ok (decode_utf16le_replace (slice data offset end_))
            | r => r
            end;
  Ok (string, end_ + 2).

(** The default of [max_len]. *)
Definition DEFAULT_MAX_LEN : Z := 1024.

(** The body of the [try] of [_parse_sid]. *)
Definition parse_sid_body (data : bytes) : result (option string) :=
  revision ← getitem data 0;
  sub_auth_count ← getitem data 1;
  if decide (len data < 8 + byte_val sub_auth_count * 4) then Ok None
  else
    let id_auth := int_from_bytes_big (slice data 2 8) in
    sub_auths ← mapM (fun i =>
                        let offset := 8 + i * 4 in
                        sub_auth ← unpack_I (slice data offset (offset + 4));
                        Ok (str_int sub_auth))
                     (seqZ 0 (byte_val sub_auth_count));
    Ok (Some ("S-" +:+ str_int (byte_val revision) +:+ "-" +:+ str_int id_auth +:+ "-"
              +:+ String.concat "-" sub_auths)).

(** [_parse_sid]; [except Exception] turns every exception into [None]. *)
Definition _parse_sid (data : bytes) : result (option string) :=
  if decide (data = [] ∨ len data < 8) then Ok None
  else match parse_sid_body data with
       | Raise _ => Ok None
       | r => r
       end.

(** The loop that reads the description strings. *)
Fixpoint read_strings (n : nat) (raw_record : bytes) (record_size str_pos : Z)
    (strings : list unicode) : result (list unicode) :=
  match n with
  | O => Ok strings
  | S n' =>
      if decide (str_pos >= record_size) then Ok strings
      else
        '(s, str_pos') ← _read_null_terminated_utf16 raw_record str_pos
                            (record_size - str_pos);
        read_strings n' raw_record record_size str_pos' (strings ++ [s])
  end.

(** The body of the [try] of [_parse_event_record]. *)
Definition decode_record (raw_record : bytes) (record_size : Z) : result EventRecord :=
  record_number ← unpack_I (slice raw_record 8 12);
  time_generated ← unpack_I (slice raw_record 12 16);
  time_written ← unpack_I (slice raw_record 16 20);
  event_id_dword ← unpack_I (slice raw_record 20 24);
  let event_id := Z.land event_id_dword 65535 in
  event_type_raw ← unpack_H (slice raw_record 24 26);
  num_strings ← unpack_H (slice raw_record 26 28);
  event_category ← unpack_H (slice raw_record 28 30);
  string_offset ← unpack_I (slice raw_record 36 40);
  user_sid_length ← unpack_I (slice raw_record 40 44);
  user_sid_offset ← unpack_I (slice raw_record 44 48);
  data_length ← unpack_I (slice raw_record 48 52);
  data_offset ← unpack_I (slice raw_record 52 56);
  let var_offset := EVENTLOGRECORD_HEADER_SIZE in
  '(source_name, var_offset) ← _read_null_terminated_utf16 raw_record var_offset
                                  DEFAULT_MAX_LEN;
  '(computer_name, var_offset) ← _read_null_terminated_utf16 raw_record var_offset
                                    DEFAULT_MAX_LEN;
  user_sid ← (if decide (user_sid_length > 0 ∧ user_sid_offset > 0
                          ∧ user_sid_offset + user_sid_length <= record_size)
              then _parse_sid (slice raw_record user_sid_offset
                                 (user_sid_offset + user_sid_length))
              else Ok None);
  strings ← (if decide (num_strings > 0 ∧ string_offset > 0
                         ∧ string_offset < record_size)
             then read_strings (Z.to_nat num_strings) raw_record record_size
                    string_offset []
             else Ok []);
  let event_data :=
    if decide (data_length > 0 ∧ data_offset > 0
               ∧ data_offset + data_length <= record_size)
    then Some (slice raw_record data_offset (data_offset + data_length))
    else None in
  let event_type :=
    default ("unknown_" +:+ str_int event_type_raw) (EVENT_TYPE_MAP !! event_type_raw) in
  Ok {| record_number := record_number;
        time_generated := _unix_to_datetime time_generated;
        time_written := _unix_to_datetime time_written;
        event_id := event_id;
        event_type := event_type;
        event_type_raw := event_type_raw;
        event_category := event_category;
        source := source_name;
        computer_name := computer_name;
        user_sid := user_sid;
        strings := strings;
        data := event_data;
        raw_record := raw_record |}.

(** [_parse_event_record(data, offset)]: the record, the next offset and the
    error message. *)
Definition _parse_event_record (data : bytes) (offset : Z)
  : result (option EventRecord * Z * option string) :=
  if decide (offset + 8 > len data) then
    Ok (None, offset, Some "Insufficient data for record header"%string)
  else
    record_size ← unpack_I (slice data offset (offset + 4));
    let signature := slice data (offset + 4) (offset + 8) in
    if decide (signature = slice_to EVT_EOF_SIGNATURE 4) then
      Ok (None, offset + 40, None)
    else if decide (signature ≠ EVT_SIGNATURE) then
      Ok (None, offset + 4,
          Some ("Invalid record signature at offset " +:+ str_int offset +:+ ": "
                +:+ hex signature))
    else if decide (record_size < EVENTLOGRECORD_HEADER_SIZE ∨ record_size > 65536) then
      Ok (None, offset + 4,
          Some ("Invalid record size at offset " +:+ str_int offset +:+ ": "
                +:+ str_int record_size))
    else if decide (offset + record_size > len data) then
      Ok (None, len data,
          Some ("Record extends past end of file at offset " +:+ str_int offset))
    else
      let raw_record := slice data offset (offset + record_size) in
      match decode_record raw_record record_size with
      | Ok record => Ok (Some record, offset + record_size, None)
      | Raise e =>
          Ok (None, offset + record_size,
              Some ("Error parsing record at offset " +:+ str_int offset +:+ ": "
                    +:+ exn_str e))
      | OutOfFuel => OutOfFuel
      end.

(** *** The record walker *)

(** The local variables of the loop of [parse_evt_file]. *)
Record walker : Type := {
  w_offset : Z;
  w_record_count : Z;
  w_errors : list string;
  w_records : list EventRecord
}.

(** Truth value of an [Optional[str]]: [None] and the empty string are false. *)
Definition truthy (error : option string) : bool :=
  match error with
  | Some s => negb (bool_decide (s = EmptyString))
  | None => false
  end.

(** What one iteration of the loop body does. *)
Inductive step (S : Type) : Type :=
  | Break (s : S)
  | Continue (s : S)
  | Raised (e : exn)
  | Stuck.
Arguments Break {S} s.
Arguments Continue {S} s.
Arguments Raised {S} e.
Arguments Stuck {S}.

(** The body of the [while] loop of [parse_evt_file], entered when
    [offset < len(data) - 8]. *)
Definition walk_body (data : bytes) (st : walker) : step walker :=
  let offset := w_offset st in
  if decide (slice data (offset + 4) (offset + 8) = slice_to EVT_EOF_SIGNATURE 4) then
    Break st
  else if decide (slice data (offset + 4) (offset + 8) ≠ EVT_SIGNATURE) then
    let next_lfle := find data EVT_SIGNATURE (offset + 4) in
    if decide (next_lfle = -1) then Break st
    else Continue {| w_offset := next_lfle - 4;
                     w_record_count := w_record_count st;
                     w_errors := w_errors st;
                     w_records := w_records st |}
  else
    match _parse_event_record data offset with
    | Ok (record, next_offset, error) =>
        let record_count := w_record_count st + 1 in
        let errors := if truthy error then w_errors st ++ option_list error
                      else w_errors st in
        let records := w_records st ++ option_list record in
        if decide (next_offset <= offset) then
          Break {| w_offset := offset; w_record_count := record_count;
                   w_errors := errors; w_records := records |}
        else
          Continue {| w_offset := next_offset; w_record_count := record_count;
                      w_errors := errors; w_records := records |}
    | Raise e => Raised e
    | OutOfFuel => Stuck
    end.

(** The [while] loop of [parse_evt_file]. *)
Fixpoint walk (fuel : nat) (data : bytes) (st : walker) : result walker :=
  if decide (w_offset st < len data - 8) then
    match fuel with
    | O => OutOfFuel
    | S fuel' =>
        match walk_body data st with
        | Break st' => Ok st'
        | Continue st' => walk fuel' data st'
        | Raised e => Raise e
        | Stuck => OutOfFuel
        end
    end
  else Ok st.

(** [parse_evt_file] from the point where the file has been read. *)
Definition parse_evt_data (input_path : string) (data : bytes) : result ParseResult :=
  if decide (len data < EVT_HEADER_SIZE) then
    Raise (FileValidationError
             ("File too small to be valid EVT: " +:+ str_int (len data) +:+ " bytes"))
  else
    header ← _parse_header data;
    st ← walk (S (length data)) data
           {| w_offset := start_offset header; w_record_count := 0;
              w_errors := []; w_records := [] |};
    Ok {| source_file := input_path;
          header := header;
          records := w_records st;
          total_records := w_record_count st;
          valid_records := len (w_records st);
          parse_errors := len (w_errors st);
          errors := w_errors st |}.

(** [parse_evt_file(input_file)] over the regular files that can be read,
    by directory entry; a path that is absent from [fs] names no file.  (A
    path that exists but cannot be opened, a directory or a file without
    read permission, is not among the paths the model speaks of: there
    [open] raises an [OSError] that leaves the function.) *)
Definition parse_evt_file (fs : gmap string bytes) (input_file : string)
  : result ParseResult :=
  match fs !! input_file with
  | None => Raise (FileValidationError ("File not found: " +:+ input_file))
  | Some data => parse_evt_data input_file data
  end.

(** *** The lazy walker *)

(** A generator run to its end: what it yielded, and how it finished. *)
Definition generated (A : Type) : Type := list A * result ().

(** The [while] loop of [iter_evt_records] over the mapped file [mm]. *)
Fixpoint iter_walk (fuel : nat) (mm : bytes) (offset : Z) : generated EventRecord :=
  if decide (offset < len mm - 8) then
    match fuel with
    | O => ([], OutOfFuel)
    | S fuel' =>
        if decide (slice mm (offset + 4) (offset + 8) = slice_to EVT_EOF_SIGNATURE 4) then
          ([], Ok ())
        else if decide (slice mm (offset + 4) (offset + 8) ≠ EVT_SIGNATURE) then
          let next_lfle := find mm EVT_SIGNATURE (offset + 4) in
          if decide (next_lfle = -1) then ([], Ok ())
          else iter_walk fuel' mm (next_lfle - 4)
        else
          match _parse_event_record mm offset with
          | Ok (record, next_offset, _error) =>
              let yielded := option_list record in
              if decide (next_offset <= offset) then (yielded, Ok ())
              else
                let '(later, finish) := iter_walk fuel' mm next_offset in
                (yielded ++ later, finish)
          | Raise e => ([], Raise e)
          | OutOfFuel => ([], OutOfFuel)
          end
    end
  else ([], Ok ()).

(** [iter_evt_records] from the point where the file has been mapped. *)
Definition iter_evt_data (mm : bytes) : generated EventRecord :=
  if decide (len mm < EVT_HEADER_SIZE) then
    ([], Raise (FileValidationError
                  ("File too small to be valid EVT: " +:+ str_int (len mm) +:+ " bytes")))
  else
    match _parse_header (slice_to mm EVT_HEADER_SIZE) with
    | Ok header => iter_walk (S (length mm)) mm (start_offset header)
    | Raise e => ([], Raise e)
    | OutOfFuel => ([], OutOfFuel)
    end.

(** [iter_evt_records(input_file)] over a file system. *)
Definition iter_evt_records (fs : gmap string bytes) (input_file : string)
  : generated EventRecord :=
  match fs !! input_file with
  | None => ([], Raise (FileValidationError ("File not found: " +:+ input_file)))
  | Some mm => iter_evt_data mm
  end.

(** ** utils.py *)

(** *** Files *)

(** A file opened in mode [r+b]: its contents and the position of the
    handle. *)
Record file : Type := { f_buf : bytes; f_pos : Z }.

(** Operations on an open file: the result, or the exception raised, and the
    file as the operation leaves it. *)
Definition io (A : Type) : Type := file → result A * file.

#[global] Instance io_ret : MRet io := fun A a f => (Ok a, f).
#[global] Instance io_bind : MBind io := fun A B k m f =>
  match m f with
  | (Ok a, f') => k a f'
  | (Raise e, f') => (Raise e, f')
  | (OutOfFuel, f') => (OutOfFuel, f')
  end.

(** A computation that touches no file. *)
Definition io_lift {A} (r : result A) : io A := fun f => (r, f).

(** [buf] with [bs] written at position [pos]; a gap between the end of the
    file and [pos] is filled with zero bytes. *)
Definition write_at (buf : bytes) (pos : Z) (bs : bytes) : bytes :=
  let p := Z.to_nat pos in
  take p buf ++ replicate (p - length buf) Byte.x00 ++ bs ++ drop (p + length bs) buf.

(** [f.seek(pos)] *)
Definition f_seek (pos : Z) : io () :=
  fun f => (Ok (), {| f_buf := f_buf f; f_pos := pos |}).

(** [f.read()] *)
Definition f_read_all : io bytes :=
  fun f => let bs := drop (Z.to_nat (f_pos f)) (f_buf f) in
           (Ok bs, {| f_buf := f_buf f; f_pos := f_pos f + len bs |}).

(** [f.read(n)] *)
Definition f_read (n : Z) : io bytes :=
  fun f => let bs := take (Z.to_nat n) (drop (Z.to_nat (f_pos f)) (f_buf f)) in
           (Ok bs, {| f_buf := f_buf f; f_pos := f_pos f + len bs |}).

(** [f.write(bs)] *)
Definition f_write (bs : bytes) : io () :=
  fun f => (Ok (), {| f_buf := write_at (f_buf f) (f_pos f) bs;
                      f_pos := f_pos f + len bs |}).

(** *** Constants *)

Definition EVT_FLAGS_OFFSET : Z := 36.
Definition EVT_FLAG_DIRTY : Z := 1.
Definition EVT_FLAG_WRAP : Z := 2.
Definition EOF_SIGNATURE : bytes := EVT_EOF_SIGNATURE.
Definition EOF_RECORD_SIZE : Z := 40.
Definition END_OFFSET_LOCATION : Z := 20.
Definition CURRENT_RECORD_LOCATION : Z := 24.
Definition OLDEST_RECORD_LOCATION : Z := 28.

(** *** Repair *)

(** The body of [with output_file.open("r+b") as f] in [repair_dirty_evt]. *)
Definition patch_copy : io () :=
  _ ← f_seek 0;
  content ← f_read_all;
  let eof_sig_pos := find content EOF_SIGNATURE 0 in
  _ ← f_seek EVT_FLAGS_OFFSET;
  flags_bytes ← f_read 4;
  let flags := int_from_bytes_little flags_bytes in
  let new_flags := Z.land flags (Z.lnot EVT_FLAG_DIRTY) in
  _ ← f_seek EVT_FLAGS_OFFSET;
  new_flags_bytes ← io_lift (int_to_bytes4 new_flags);
  _ ← f_write new_flags_bytes;
  if decide (eof_sig_pos >= 0) then
    let eof_record_start := eof_sig_pos - 4 in
    let correct_end_offset := eof_record_start + EOF_RECORD_SIZE in
    let eof_current_record :=
      int_from_bytes_little (slice content (eof_sig_pos + 24) (eof_sig_pos + 28)) in
    let eof_oldest_record :=
      int_from_bytes_little (slice content (eof_sig_pos + 28) (eof_sig_pos + 32)) in
    _ ← f_seek END_OFFSET_LOCATION;
    end_offset_bytes ← io_lift (int_to_bytes4 correct_end_offset);
    _ ← f_write end_offset_bytes;
    _ ← f_seek CURRENT_RECORD_LOCATION;
    current_bytes ← io_lift (int_to_bytes4 eof_current_record);
    _ ← f_write current_bytes;
    _ ← f_seek OLDEST_RECORD_LOCATION;
    oldest_bytes ← io_lift (int_to_bytes4 eof_oldest_record);
    f_write oldest_bytes
  else mret ().

(** *** The file system *)

(** Regular files and the names they go by.  [names] gives the number of the
    file behind each directory entry (the [st_ino] that [os.stat] reports),
    [blobs] the contents of each file by its number.  Entries that share a
    number are links to one file: what is written through one is read
    through the other. *)
Record disk : Type := { names : gmap string N; blobs : gmap N bytes }.

(** The files by directory entry, as a function that opens one path finds
    them. *)
Definition files (d : disk) : gmap string bytes :=
  omap (fun i => blobs d !! i) (names d).

(** The number the system gives the next file it creates: one that no entry
    has. *)
Definition new_file (d : disk) : N :=
  N.succ (map_fold (fun _ i m => N.max i m) 0%N (names d)).

Section paths.

(** The directory entry that a path names: the path made absolute and
    normal, so that the spellings of one path ([System.evt],
    [./System.evt], the absolute path) have one entry. *)
Variable entry : string → string.

(** [os.path.samefile(p, q)] as [shutil] asks it: both paths name a file,
    and it is one file. *)
Definition samefile (d : disk) (p q : string) : bool :=
  match names d !! entry p, names d !! entry q with
  | Some i, Some j => bool_decide (i = j)
  | _, _ => false
  end.

(** [open(p, "wb")], [write(content)], [close()]: the file that [p] names
    holds [content], under each of its names; a path that names no file
    gets a new one. *)
Definition write_file (d : disk) (p : string) (content : bytes) : disk :=
  match names d !! entry p with
  | Some i => {| names := names d; blobs := <[i := content]> (blobs d) |}
  | None => {| names := <[entry p := new_file d]> (names d);
               blobs := <[new_file d := content]> (blobs d) |}
  end.

(** [p.exists()] *)
Definition exists_ (d : disk) (p : string) : bool :=
  bool_decide (is_Some (names d !! entry p)).

(** [p.unlink()]: the entry goes; a file with other names stays under
    them. *)
Definition unlink (d : disk) (p : string) : disk :=
  {| names := delete (entry p) (names d); blobs := blobs d |}.

(** [shutil.copy2(src, dst)] between regular files: two paths that name one
    file and a missing source both raise a subclass of [OSError]; the
    message texts stand for the interpreter's.  The mode and the times that
    [copy2] carries over to the copy are not part of a [disk]. *)
Definition copy2 (d : disk) (src dst : string) : result () * disk :=
  if samefile d src dst then
    (Raise (OSError (src +:+ " and " +:+ dst +:+ " are the same file")), d)
  else
    match files d !! entry src with
    | None => (Raise (OSError ("No such file or directory: " +:+ src)), d)
    | Some content => (Ok (), write_file d dst content)
    end.

(** The [except OSError] clause of [repair_dirty_evt]. *)
Definition repair_failed (d : disk) (input_file output_file : string)
    (e : exn) : result string * disk :=
  (Raise (FileValidationError
            ("Failed to repair EVT file: " +:+ input_file +:+ " (" +:+ exn_str e +:+ ")")),
   if exists_ d output_file then unlink d output_file else d).

(** [repair_dirty_evt(input_file, output_file)]: the path returned, or the
    exception raised, and the disk afterwards.  [temp_path] is the name
    [tempfile.mkstemp] picks when no [output_file] is given, one that no
    file has. *)
Definition repair_dirty_evt (d : disk) (input_file : string)
    (output_file : option string) (temp_path : string)
  : result string * disk :=
  let '(d, output_file) :=
    match output_file with
    | None => (write_file d temp_path [], temp_path)
    | Some output_file => (d, output_file)
    end in
  match copy2 d input_file output_file with
  | (Ok (), d) =>
      match files d !! entry output_file with
      | None => repair_failed d input_file output_file
                  (OSError ("No such file or directory: " +:+ output_file))
      | Some buf =>
          let '(r, f) := patch_copy {| f_buf := buf; f_pos := 0 |} in
          let d := write_file d output_file (f_buf f) in
          match r with
          | Ok () => (Ok output_file, d)
          | Raise e => if is_OSError e then repair_failed d input_file output_file e
                       else (Raise e, d)
          | OutOfFuel => (OutOfFuel, d)
          end
      end
  | (Raise e, d) =>
      if is_OSError e then repair_failed d input_file output_file e else (Raise e, d)
  | (OutOfFuel, d) => (OutOfFuel, d)
  end.

(** The output is apart from the source: the path given does not name the
    source's file or, none being given, the temporary name is one no file
    has. *)
Definition apart (d : disk) (input_file : string) (output_file : option string)
    (temp_path : string) : Prop :=
  match output_file with
  | Some output_file => samefile d input_file output_file = false
  | None => names d !! entry temp_path = None
  end.

End paths.

(** The header fields of a file's contents that the repair rewrites. *)
Definition flags_field (buf : bytes) : Z := int_from_bytes_little (slice buf 36 40).
Definition end_offset_field (buf : bytes) : Z := int_from_bytes_little (slice buf 20 24).
Definition current_record_field (buf : bytes) : Z := int_from_bytes_little (slice buf 24 28).
Definition oldest_record_field (buf : bytes) : Z := int_from_bytes_little (slice buf 28 32).

(** *** Checks on a file *)

(** [f"{n:02x}"]: lowercase hexadecimal, a minus sign for a negative number,
    zero-padded after the sign to two characters in all. *)
Definition format_02x (n : Z) : string :=
  let digits := HexadecimalString.NilZero.string_of_uint (N.to_hex_uint (Z.to_N (Z.abs n))) in
  if decide (n < 0) then "-" +:+ digits
  else if decide (String.length digits < 2)%nat then "0" +:+ digits
  else digits.

(** [f"{n:02X}"]: the same in uppercase. *)
Definition format_02X (n : Z) : string :=
  string_of_list_ascii
    (map (fun c => if bool_decide (97 <= N_of_ascii c <= 102)%N
                   then ascii_of_N (N_of_ascii c - 32) else c)
         (list_ascii_of_string (format_02x n))).

(** [validate_legacy_evt_signature(input_file)] *)
Definition validate_legacy_evt_signature (fs : gmap string bytes) (input_file : string)
  : result () :=
  match fs !! input_file with
  | None =>
      Raise (FileValidationError
               ("Cannot read input file: " +:+ input_file
                +:+ " (No such file or directory: " +:+ input_file +:+ ")"))
  | Some buf =>
      match f_read (EVT_SIGNATURE_OFFSET + len EVT_SIGNATURE) {| f_buf := buf; f_pos := 0 |} with
      | (Ok header, _) =>
          if decide (len header < EVT_SIGNATURE_OFFSET + len EVT_SIGNATURE) then
            Raise (FileValidationError
                     ("Input file is too small to be a valid legacy .evt: " +:+ input_file))
          else if decide (slice header EVT_SIGNATURE_OFFSET
                            (EVT_SIGNATURE_OFFSET + len EVT_SIGNATURE) ≠ EVT_SIGNATURE) then
            Raise (FileValidationError
                     ("Input file does not appear to be a legacy Windows Event Log (.evt) "
                      +:+ "(missing " +:+ bytes_repr EVT_SIGNATURE +:+ " signature at offset 0x"
                      +:+ format_02X EVT_SIGNATURE_OFFSET +:+ "): " +:+ input_file))
          else Ok ()
      | (Raise e, _) =>
          if is_OSError e then
            Raise (FileValidationError
                     ("Cannot read input file: " +:+ input_file +:+ " (" +:+ exn_str e +:+ ")"))
          else Raise e
      | (OutOfFuel, _) => OutOfFuel
      end
  end.

(** [is_evt_dirty(input_file)] *)
Definition is_evt_dirty (fs : gmap string bytes) (input_file : string) : result bool :=
  match fs !! input_file with
  | None =>
      Raise (FileValidationError
               ("Cannot read EVT flags: " +:+ input_file
                +:+ " (No such file or directory: " +:+ input_file +:+ ")"))
  | Some buf =>
      match (_ ← f_seek EVT_FLAGS_OFFSET; f_read 4) {| f_buf := buf; f_pos := 0 |} with
      | (Ok flags_bytes, _) =>
          if decide (len flags_bytes < 4) then
            Raise (FileValidationError
                     ("File too small to contain flags field: " +:+ input_file))
          else
            let flags := int_from_bytes_little flags_bytes in
            Ok (bool_decide (Z.land flags EVT_FLAG_DIRTY ≠ 0))
      | (Raise e, _) =>
          if is_OSError e then
            Raise (FileValidationError
                     ("Cannot read EVT flags: " +:+ input_file +:+ " (" +:+ exn_str e +:+ ")"))
          else Raise e
      | (OutOfFuel, _) => OutOfFuel
      end
  end.

(** ** formatters.py *)

(** The scan of [str.replace] for a non-empty [old]: [skip] characters of a
    match are still to be passed over. *)
Fixpoint replace_from (old new : unicode) (skip : nat) (s : unicode) : unicode :=
  match s with
  | [] => []
  | c :: s' =>
      match skip with
      | S k => replace_from old new k s'
      | O => if bool_decide (old `prefix_of` s)
             then new ++ replace_from old new (length old - 1) s'
             else c :: replace_from old new 0 s'
      end
  end.

(** [s.replace(old, new)]: every occurrence, left to right, without
    overlap; an empty [old] matches before each character and at the end. *)
Definition str_replace (s old new : unicode) : unicode :=
  match old with
  | [] => new ++ flat_map (fun c => c :: new) s
  | _ :: _ => replace_from old new 0 s
  end.

(** [CsvFormatter._sanitize_csv_cell(value)] *)
Definition _sanitize_csv_cell (value : unicode) : unicode :=
  if decide (value = []) then value
  else
    let value := str_replace
                   (str_replace (str_replace value [13; 10] [92; 110]) [13] [92; 110])
                   [10] [92; 110] in
    let value := str_replace value [9] [92; 116] in
    flat_map (fun ch => let code := ch in
                        if decide (code < 32)
                        then unicode_of_string ("\x" +:+ format_02x code)
                        else [ch])
             value.

(** ** Records and the frames they come from *)

(** [record] is what [decode_record] makes of a frame of [data]: a span that
    carries the record magic and whose declared size, between 56 and 65536,
    fits the buffer. *)
Definition decoded_from (data : bytes) (record : EventRecord) : Prop :=
  ∃ offset size,
    0 <= offset
    ∧ slice data (offset + 4) (offset + 8) = EVT_SIGNATURE
    ∧ size = int_from_bytes_little (slice data offset (offset + 4))
    ∧ 56 <= size <= 65536 ∧ offset + size <= len data
    ∧ decode_record (slice data offset (offset + size)) size = Ok record.

(** The records [recs] keep, in this order, spans of [data] that start at or
    after [lo], end at or before [hi] and inside the buffer, and do not
    overlap: each starts where the one before ended, or later. *)
Fixpoint frames_between (data : bytes) (lo hi : Z) (recs : list EventRecord) : Prop :=
  match recs with
  | [] => True
  | record :: rest =>
      ∃ offset,
        lo <= offset
        ∧ offset + len (raw_record record) <= hi
        ∧ offset + len (raw_record record) <= len data
        ∧ 0 < len (raw_record record)
        ∧ raw_record record = slice data offset (offset + len (raw_record record))
        ∧ frames_between data (offset + len (raw_record record)) hi rest
  end.

(** ** converter.py: the batch loop *)

Module converter.

Inductive ConversionStatus : Type := SUCCESS | FAILED | SKIPPED.

#[global] Instance ConversionStatus_eq_dec : EqDecision ConversionStatus.
Proof. solve_decision. Defined.

(** [ConversionResult]; [duration_seconds], a wall-clock reading, is left
    out. *)
Record ConversionResult : Type := {
  status : ConversionStatus;
  input_file : string;
  output_file : option string;
  error_message : option string
}.

(** The [success] property of [ConversionResult]. *)
Definition success (r : ConversionResult) : bool :=
  match status r with SUCCESS => true | _ => false end.

(** [BatchConversionSummary], without [total_duration_seconds]. *)
Record BatchConversionSummary : Type := {
  total : Z;
  successful : Z;
  failed : Z;
  skipped : Z;
  results : list ConversionResult
}.

(** How a call ends: it returns, it raises [ConversionError], or an
    exception of a callee passes through. *)
Inductive outcome (Exc A : Type) : Type :=
  | Returned (a : A)
  | RaisedConversionError (msg : string)
  | RaisedBy (e : Exc).
Arguments Returned {Exc A} a.
Arguments RaisedConversionError {Exc A} msg.
Arguments RaisedBy {Exc A} e.

(** [str(x)] for an [Optional[str]]. *)
Definition str_optional (x : option string) : string :=
  match x with Some s => s | None => "None" end.

Section batch.

(** The state the calls of the loop body act on (file system, console,
    processes) and the exceptions they raise. *)
Variables (World Exc : Type).

(** The loop body of [batch_convert] up to and including its call of
    [convert_evt_to_evtx]: the progress callback with [(index, total,
    evt_file)], the choice and creation of the output directory, and the
    conversion; it gives the [ConversionResult] returned, or the exception
    raised on the way. *)
Variable convert_file : World → Z → Z → string → (ConversionResult + Exc) * World.

(** The [for] loop of [batch_convert] from file number [index] on; the
    summary argument holds the counters and the results so far. *)
Fixpoint batch_loop (continue_on_error : bool) (index : Z) (evt_files : list string)
    (w : World) (acc : BatchConversionSummary)
  : outcome Exc BatchConversionSummary * World :=
  match evt_files with
  | [] => (Returned acc, w)
  | evt_file :: rest =>
      match convert_file w index (total acc) evt_file with
      | (inr e, w) => (RaisedBy e, w)
      | (inl result, w) =>
          let added := results acc ++ [result] in
          match status result with
          | SUCCESS =>
              batch_loop continue_on_error (index + 1) rest w
                {| total := total acc; successful := successful acc + 1;
                   failed := failed acc; skipped := skipped acc; results := added |}
          | FAILED =>
              if negb continue_on_error then
                (RaisedConversionError
                   ("Conversion failed for " +:+ evt_file +:+ ": "
                    +:+ str_optional (error_message result)), w)
              else
                batch_loop continue_on_error (index + 1) rest w
                  {| total := total acc; successful := successful acc;
                     failed := failed acc + 1; skipped := skipped acc; results := added |}
          | SKIPPED =>
              batch_loop continue_on_error (index + 1) rest w
                {| total := total acc; successful := successful acc;
                   failed := failed acc; skipped := skipped acc + 1; results := added |}
          end
      end
  end.

(** [batch_convert] from the point where [find_evt_files] has returned
    [evt_files]. *)
Definition batch_convert_files (continue_on_error : bool) (evt_files : list string)
    (w : World) : outcome Exc BatchConversionSummary * World :=
  batch_loop continue_on_error 1 evt_files w
    {| total := len evt_files; successful := 0; failed := 0; skipped := 0; results := [] |}.

End batch.

(** The number of results with a given status. *)
Definition count_status (s : ConversionStatus) (rs : list ConversionResult) : Z :=
  len (filter (fun r => status r = s) rs).

End converter.

(** ** Where a scan stops *)

(** The two bytes at [i] are a zero code unit. *)
Definition terminator_at (data : bytes) (i : Z) : Prop :=
  slice data i (i + 2) = [Byte.x00; Byte.x00].

(** Where the scan that starts at [e] stops. *)
Definition scan_stops (data : bytes) (limit e e' : Z) : Prop :=
  (∃ k : nat, e' = e + 2 * Z.of_nat k
              ∧ ∀ j : nat, (j < k)%nat → ¬ terminator_at data (e + 2 * Z.of_nat j))
  ∧ ((e' < limit ∧ terminator_at data e')
     ∨ (limit <= e' ∧ (e' = e ∨ e' < limit + 2))).

(** ** Sample inputs *)

Definition u32 (v : Z) : bytes := le_bytes 4 v.
Definition u16 (v : Z) : bytes := le_bytes 2 v.

(** An ASCII text as null-terminated UTF-16LE. *)
Definition utf16z (s : string) : bytes :=
  flat_map (fun c => [byte_of_Z (Z.of_N (N_of_ascii c)); Byte.x00]) (list_ascii_of_string s)
  ++ [Byte.x00; Byte.x00].

(** A 48-byte header with the given start offset and flags. *)
Definition sample_header (start fl : Z) : bytes :=
  u32 48 ++ EVT_SIGNATURE ++ u32 1 ++ u32 1 ++ u32 start ++ u32 164 ++ u32 2 ++ u32 1
  ++ u32 65536 ++ u32 fl ++ u32 0 ++ u32 48.

(** A 76-byte record with source "abc" and computer "pc", no strings, SID or
    payload; its magic and declared size are given. *)
Definition sample_record (sig : bytes) (size : Z) : bytes :=
  u32 size ++ sig ++ u32 7 ++ u32 1000 ++ u32 1001 ++ u32 (65536 * 3 + 528)
  ++ u16 4 ++ u16 0 ++ u16 9 ++ u16 0 ++ u32 7 ++ u32 70 ++ u32 0 ++ u32 0 ++ u32 0 ++ u32 0
  ++ utf16z "abc" ++ utf16z "pc" ++ [Byte.x00; Byte.x00] ++ u32 size.

(** The 40-byte EOF record. *)
Definition sample_eof : bytes :=
  u32 40 ++ EVT_EOF_SIGNATURE ++ u32 48 ++ u32 124 ++ u32 2 ++ u32 1 ++ u32 40.

(** Header, one record, EOF record; the dirty flag is set. *)
Definition sample_log : bytes :=
  sample_header 48 1 ++ sample_record EVT_SIGNATURE 76 ++ sample_eof.

(** The same log with a record that declares 55 bytes. *)
Definition short_size_log : bytes :=
  sample_header 48 0 ++ sample_record EVT_SIGNATURE 55 ++ sample_eof.

(** The same log with the record's magic overwritten. *)
Definition bad_magic_log : bytes :=
  sample_header 48 0 ++ sample_record [Byte.x58; Byte.x58; Byte.x58; Byte.x58] 76
  ++ sample_eof.

(** Eight bytes of padding between the header and the record. *)
Definition padded_log : bytes :=
  sample_header 48 0 ++ u32 0 ++ u32 0 ++ sample_record EVT_SIGNATURE 76 ++ sample_eof.

(** A header and the first eight bytes of a frame, a declared size of 55
    and the record magic, which end the buffer. *)
Definition short_size_prefix_log : bytes :=
  sample_header 48 0 ++ u32 55 ++ EVT_SIGNATURE.

(** The sample log with, in place of the EOF record, the first eight bytes
    of a frame of declared size 100, which end the buffer. *)
Definition truncated_prefix_log : bytes :=
  sample_header 48 0 ++ sample_record EVT_SIGNATURE 76 ++ u32 100 ++ EVT_SIGNATURE.


(** A buffer that ends with the 8-byte prefix of a record. *)
Definition prefix_only_log : bytes :=
  sample_header 48 0 ++ u32 100 ++ EVT_SIGNATURE.

Definition walker_at (offset : Z) : walker :=
  {| w_offset := offset; w_record_count := 0; w_errors := []; w_records := [] |}.

(** The bytes of a SID: revision, sub-authority count, the authority as six
    big-endian bytes, then each sub-authority as four little-endian bytes. *)
Definition sid_bytes (revision authority : Z) (sub_authorities : list Z) : bytes :=
  [byte_of_Z revision; byte_of_Z (len sub_authorities)]
  ++ rev (le_bytes 6 authority) ++ flat_map u32 sub_authorities.

(** 600 code units of "a", then the terminator. *)
Definition long_text : bytes :=
  concat (replicate 600 [Byte.x61; Byte.x00]) ++ [Byte.x00; Byte.x00].

(** Following the specification's words: a scan from [offset] that ended at
    [end_] stopped at a zero code unit or after [cap] code units. *)
Definition stops_at_terminator_or_cap (data : bytes) (offset cap end_ : Z) : Prop :=
  terminator_at data end_ ∨ end_ = offset + 2 * cap.

(** 4294967260 zero bytes, then the EOF pattern: a buffer in which the
    pattern starts at [2^32 − 36]. *)
Definition oversized_log : bytes :=
  replicate (Z.to_nat 4294967260) Byte.x00 ++ EVT_EOF_SIGNATURE.

(** A disk with the sample log under one name. *)
Definition sample_disk : disk :=
  {| names := {[ "System.evt"%string := 1%N ]}; blobs := {[ 1%N := sample_log ]} |}.

(** The sample disk with a second name for the log, a link. *)
Definition linked_disk : disk :=
  {| names := {[ "System.evt"%string := 1%N; "Link.evt"%string := 1%N ]};
     blobs := {[ 1%N := sample_log ]} |}.

(** Entries for the examples: a leading [./] does not count. *)
Definition sample_entry (p : string) : string :=
  match p with
  | String "."%char (String "/"%char rest) => rest
  | _ => p
  end.

(** A conversion for the examples: files named [locked.evt] fail, files
    named [done.evt] are skipped, the others are converted. *)
Definition sample_convert_file (w : unit) (index total : Z) (evt_file : string)
  : (converter.ConversionResult + Empty_set) * unit :=
  (inl {| converter.status :=
            if String.eqb evt_file "locked.evt" then converter.FAILED
            else if String.eqb evt_file "done.evt" then converter.SKIPPED
            else converter.SUCCESS;
          converter.input_file := evt_file;
          converter.output_file := None;
          converter.error_message := None |}, w).

(** * Facts about the primitives *)

Section primitives.
Context {A : Type}.
Implicit Types (l data : list A) (a b : Z).

Lemma len_nonneg l : 0 <= len l.
Proof. unfold len. lia. Qed.

Lemma len_app l1 l2 : len (l1 ++ l2) = len l1 + len l2.
Proof. unfold len. rewrite length_app. lia. Qed.

Lemma slice_nonneg data a b :
  0 <= a → 0 <= b →
  slice data a b = take (Z.to_nat b - Z.to_nat a) (drop (Z.to_nat a) data).
Proof.
  intros Ha Hb. unfold slice, clamp, len.
  repeat case_decide; try lia.
  destruct (decide (a <= Z.of_nat (length data))) as [Hle|Hgt].
  - rewrite (Z.min_l a) by lia.
    destruct (decide (b <= Z.of_nat (length data))).
    + rewrite (Z.min_l b) by lia. f_equal. lia.
    + rewrite (Z.min_r b) by lia.
      rewrite !take_ge; [done | rewrite length_drop; lia | rewrite length_drop; lia].
  - rewrite (Z.min_r a) by lia. rewrite Nat2Z.id.
    rewrite drop_all. rewrite (drop_ge data (Z.to_nat a)) by lia.
    by rewrite !take_nil.
Qed.

Lemma length_slice data a b :
  0 <= a → a <= b → b <= len data → length (slice data a b) = Z.to_nat (b - a).
Proof.
  intros Ha Hab Hb. unfold len in Hb. rewrite slice_nonneg by lia.
  rewrite length_take, length_drop. lia.
Qed.

Lemma slice_app_l l1 l2 a b :
  0 <= a → 0 <= b → b <= len l1 → slice (l1 ++ l2) a b = slice l1 a b.
Proof.
  intros Ha Hb Hl. unfold len in Hl. rewrite !slice_nonneg by lia.
  destruct (decide (a <= b)).
  - rewrite drop_app_le by lia. rewrite take_app_le; [done|].
    rewrite length_drop. lia.
  - replace (Z.to_nat b - Z.to_nat a)%nat with 0%nat by lia. done.
Qed.

Lemma slice_slice data a b c d :
  0 <= a → 0 <= c → 0 <= d → a + d <= b →
  slice (slice data a b) c d = slice data (a + c) (a + d).
Proof.
  intros Ha Hc Hd Hb. rewrite !slice_nonneg by lia.
  rewrite skipn_firstn_comm, take_take, drop_drop.
  f_equal; [lia | f_equal; lia].
Qed.

Lemma slice_full data : slice data 0 (len data) = data.
Proof.
  rewrite slice_nonneg by (pose proof (len_nonneg data); lia).
  unfold len. simpl. rewrite Nat.sub_0_r, Nat2Z.id. apply take_ge. lia.
Qed.

(** The element at an index in range is the one-element slice there. *)
Lemma slice_lookup data (i : nat) x :
  data !! i = Some x → slice data (Z.of_nat i) (Z.of_nat i + 1) = [x].
Proof.
  intros Hx. rewrite slice_nonneg by lia.
  replace (Z.to_nat (Z.of_nat i + 1) - Z.to_nat (Z.of_nat i))%nat with 1%nat by lia.
  rewrite Nat2Z.id. by rewrite (drop_S _ _ _ Hx).
Qed.

Lemma slice_split data a b c :
  0 <= a → a <= b → b <= c → slice data a c = slice data a b ++ slice data b c.
Proof.
  intros Ha Hab Hbc. rewrite !slice_nonneg by lia.
  replace (Z.to_nat c - Z.to_nat a)%nat
    with ((Z.to_nat b - Z.to_nat a) + (Z.to_nat c - Z.to_nat b))%nat by lia.
  rewrite <- take_take_drop, drop_drop. do 3 f_equal. lia.
Qed.

End primitives.

Lemma byte_val_range b : 0 <= byte_val b < 256.
Proof.
  unfold byte_val. pose proof (Byte.to_N_bounded b). lia.
Qed.

Lemma byte_val_inj b1 b2 : byte_val b1 = byte_val b2 → b1 = b2.
Proof.
  unfold byte_val. intros H. apply N2Z.inj in H.
  pose proof (Byte.of_to_N b1) as H1. pose proof (Byte.of_to_N b2) as H2.
  rewrite H in H1. congruence.
Qed.

Lemma byte_val_of_Z z : byte_val (byte_of_Z z) = z mod 256.
Proof.
  unfold byte_of_Z, byte_val.
  pose proof (Z.mod_pos_bound z 256 eq_refl) as Hz.
  destruct (Byte.of_N (Z.to_N (z mod 256))) as [b|] eqn:E.
  - apply Byte.to_of_N in E. simpl. rewrite E. lia.
  - apply Byte.of_N_None_iff in E. lia.
Qed.

Lemma byte_val_zero b : byte_val b = 0 ↔ b = Byte.x00.
Proof.
  split; [|by intros ->]. intros H. by apply byte_val_inj.
Qed.

Lemma int_from_bytes_little_range bs :
  0 <= int_from_bytes_little bs < 256 ^ len bs.
Proof.
  induction bs as [|b bs IH].
  - simpl. unfold len. simpl. lia.
  - cbn [int_from_bytes_little]. pose proof (byte_val_range b).
    replace (len (b :: bs)) with (len bs + 1) by (unfold len; simpl length; lia).
    rewrite Z.pow_add_r by (pose proof (len_nonneg bs); lia).
    lia.
Qed.

Lemma int_from_le_bytes n v :
  0 <= v < 256 ^ Z.of_nat n → int_from_bytes_little (le_bytes n v) = v.
Proof.
  revert v. induction n as [|n IH]; intros v Hv.
  - simpl in *. lia.
  - cbn [le_bytes int_from_bytes_little]. rewrite byte_val_of_Z.
    rewrite IH.
    + pose proof (Z.div_mod v 256). lia.
    + rewrite Nat2Z.inj_succ, Z.pow_succ_r in Hv by lia.
      split; [apply Z.div_pos; lia | apply Z.div_lt_upper_bound; lia].
Qed.

Lemma length_le_bytes n v : length (le_bytes n v) = n.
Proof. revert v. induction n; intros; simpl; auto. Qed.

Lemma unpack_I_Ok bs : length bs = 4%nat → unpack_I bs = Ok (int_from_bytes_little bs).
Proof. intros H. unfold unpack_I. by rewrite decide_True. Qed.

Lemma unpack_I_slice (data : bytes) a :
  0 <= a → a + 4 <= len data →
  unpack_I (slice data a (a + 4)) = Ok (int_from_bytes_little (slice data a (a + 4))).
Proof.
  intros. apply unpack_I_Ok. rewrite length_slice by lia. lia.
Qed.

(** *** [find] *)

Lemma starts_with_take sub l :
  starts_with sub l = true ↔ take (length sub) l = sub.
Proof.
  revert l. induction sub as [|x sub IH]; intros [|y l]; simpl; try done.
  rewrite andb_true_iff, bool_decide_eq_true, IH. split.
  - by intros [-> ->].
  - intros [= -> ->]. split; [done|]. congruence.
Qed.

(** What the search returns: [-1], or the first position at or after [i]
    where [sub] starts. *)
Lemma find_in_spec sub l i :
  0 <= i →
  let r := find_in sub l i in
  (r = -1 ∨ (i <= r <= i + len l ∧ starts_with sub (drop (Z.to_nat (r - i)) l) = true))
  ∧ (∀ j, i <= j → (j < r ∨ r = -1) → j <= i + len l →
          starts_with sub (drop (Z.to_nat (j - i)) l) = false).
Proof.
  revert i. induction l as [|y l IH]; intros i Hi; cbn [find_in].
  - destruct (starts_with sub []) eqn:E; cbn zeta.
    + split.
      * right. unfold len; simpl. split; [lia|]. by rewrite Z.sub_diag.
      * intros j ? [?|?] ?; lia.
    + split; [by left|]. intros j ? _ Hj. unfold len in Hj; simpl in Hj.
      replace j with i by lia. by rewrite Z.sub_diag.
  - destruct (starts_with sub (y :: l)) eqn:E; cbn zeta.
    + split.
      * right. rewrite Z.sub_diag. split; [|done]. pose proof (len_nonneg (y :: l)). lia.
      * intros j ? [?|?] ?; lia.
    + destruct (IH (i + 1)) as [IH1 IH2]; [lia|]. cbn zeta in IH1, IH2.
      replace (len (y :: l)) with (len l + 1) by (unfold len; simpl length; lia).
      split.
      * destruct IH1 as [?|[? Hs]]; [by left|right]. split; [lia|].
        replace (Z.to_nat (find_in sub l (i + 1) - i))
          with (S (Z.to_nat (find_in sub l (i + 1) - (i + 1)))) by lia.
        done.
      * intros j Hij Hj Hle. destruct (decide (j = i)) as [->|].
        { by rewrite Z.sub_diag. }
        replace (Z.to_nat (j - i)) with (S (Z.to_nat (j - (i + 1)))) by lia.
        apply IH2; lia.
Qed.

(** A hit of [find] from a non-negative start: where it lies and what is
    there. *)
Lemma find_hit (data sub : bytes) start r :
  0 <= start → find data sub start = r → r ≠ -1 →
  start <= r ∧ r + len sub <= len data ∧ slice data r (r + len sub) = sub.
Proof.
  intros Hs Hf Hr. unfold find in Hf.
  destruct (decide (start < 0)); [lia|].
  case_decide; [congruence|].
  pose proof (find_in_spec sub (drop (Z.to_nat start) data) start Hs) as [H1 _].
  cbn zeta in H1. rewrite Hf in H1. destruct H1 as [?|[Hrange Hsw]]; [done|].
  rewrite drop_drop in Hsw. apply starts_with_take in Hsw.
  replace (Z.to_nat start + Z.to_nat (r - start))%nat with (Z.to_nat r) in Hsw by lia.
  assert (length sub <= length (drop (Z.to_nat r) data))%nat as Hlen.
  { rewrite <- Hsw at 1. rewrite length_take. lia. }
  rewrite length_drop in Hlen.
  unfold len in Hrange, H. rewrite length_drop in Hrange.
  split; [lia|]. split; [unfold len; lia|].
  rewrite slice_nonneg by (unfold len; lia).
  rewrite <- Hsw at 2. f_equal. unfold len. lia.
Qed.

(** [find] does not skip an occurrence. *)
Lemma find_first (data sub : bytes) start j :
  0 <= start → start <= j → j + len sub <= len data →
  slice data j (j + len sub) = sub →
  let r := find data sub start in r ≠ -1 ∧ r <= j.
Proof.
  intros Hs Hj Hlen Hsl r. subst r. unfold find.
  pose proof (len_nonneg sub).
  destruct (decide (start < 0)); [lia|].
  destruct (decide (start > len data)); [lia|].
  pose proof (find_in_spec sub (drop (Z.to_nat start) data) start Hs) as [_ H2].
  cbn zeta in H2.
  assert (starts_with sub (drop (Z.to_nat (j - start)) (drop (Z.to_nat start) data)) = true)
    as Hsw.
  { apply starts_with_take. rewrite drop_drop.
    replace (Z.to_nat start + Z.to_nat (j - start))%nat with (Z.to_nat j) by lia.
    rewrite slice_nonneg in Hsl by lia. rewrite <- Hsl at 2. f_equal. unfold len. lia. }
  set (r := find_in sub (drop (Z.to_nat start) data) start) in *.
  destruct (decide (j < r ∨ r = -1)) as [Hlt|Hge]; [|lia].
  rewrite H2 in Hsw; [done| lia | done |].
  unfold len. rewrite length_drop. unfold len in Hlen. lia.
Qed.

(** Resynchronisation moves forward: when the bytes at [start] are not
    [sub], a hit lies strictly after [start]. *)
Lemma find_progress (data sub : bytes) start r :
  0 <= start → slice data start (start + len sub) ≠ sub →
  find data sub start = r → r ≠ -1 → start < r.
Proof.
  intros Hs Hne Hf Hr. destruct (find_hit data sub start r Hs Hf Hr) as (? & ? & Hsl).
  destruct (decide (r = start)) as [->|]; [done|lia].
Qed.

(** *** Indexing *)

Lemma getitem_in_range (data : bytes) i :
  0 <= i < len data → ∃ b, getitem data i = Ok b ∧ data !! Z.to_nat i = Some b.
Proof.
  intros Hi. unfold getitem.
  destruct (decide (i < 0)); [lia|]. destruct (decide (i < 0)); [lia|].
  destruct (data !! Z.to_nat i) as [b|] eqn:E; [eauto|].
  apply lookup_ge_None in E. unfold len in Hi. lia.
Qed.

Lemma slice_two (data : bytes) i b0 b1 :
  0 <= i → data !! Z.to_nat i = Some b0 → data !! Z.to_nat (i + 1) = Some b1 →
  slice data i (i + 2) = [b0; b1].
Proof.
  intros Hi H0 H1. rewrite (slice_split data i (i + 1) (i + 2)) by lia.
  pose proof (slice_lookup data (Z.to_nat i) b0 H0) as E0.
  pose proof (slice_lookup data (Z.to_nat (i + 1)) b1 H1) as E1.
  rewrite !Z2Nat.id in E0, E1 by lia.
  replace (i + 2) with (i + 1 + 1) by lia. by rewrite E0, E1.
Qed.

(** *** UTF-16 *)

(** The [try]/[except UnicodeDecodeError] around the two decodes always
    ends with the lenient decode's value. *)
Lemma decode_utf16le_fallback bs :
  match decode_utf16le bs with
  | Raise (UnicodeDecodeError _) => Ok (decode_utf16le_replace bs)
  | r => r
  end = Ok (decode_utf16le_replace bs).
Proof.
  remember (length bs) as n eqn:Hn. revert bs Hn.
  induction n as [n IH] using lt_wf_ind. intros bs Hn.
  destruct bs as [|lo [|hi rest]]; [done..|].
  cbn [decode_utf16le decode_utf16le_replace].
  assert (Hrest : ∀ l, (length l < n)%nat →
            match decode_utf16le l with
            | Raise (UnicodeDecodeError _) => Ok (decode_utf16le_replace l)
            | r => r
            end = Ok (decode_utf16le_replace l)) by (intros; by eapply IH).
  simpl in Hn.
  destruct (negb (is_surrogate (code_unit lo hi))).
  { pose proof (Hrest rest ltac:(lia)) as Hr.
    destruct (decode_utf16le rest) as [s|[]|]; simpl; try discriminate Hr;
      congruence. }
  destruct (negb (is_high_surrogate (code_unit lo hi))); [done|].
  destruct rest as [|lo2 [|hi2 rest']]; [done..|].
  destruct (is_low_surrogate (code_unit lo2 hi2)); [|done].
  simpl in Hn.
  pose proof (Hrest rest' ltac:(lia)) as Hr.
  destruct (decode_utf16le rest') as [s|[]|]; simpl; try discriminate Hr;
    congruence.
Qed.

(** *** The terminator scan *)

Lemma scan_terminator_spec fuel (data : bytes) limit e :
  0 <= e → limit <= len data - 1 → limit - e < 2 * Z.of_nat fuel →
  ∃ e', scan_terminator fuel data limit e = Ok e' ∧ scan_stops data limit e e'.
Proof.
  revert e. induction fuel as [|fuel IH]; intros e He Hlim Hfuel.
  - exists e. simpl. destruct (decide (e < limit)); [lia|]. split; [done|].
    split; [exists 0%nat; split; [lia|intros; lia] | right; lia].
  - cbn [scan_terminator]. destruct (decide (e < limit)) as [Hlt|Hge].
    2: { exists e. split; [done|].
         split; [exists 0%nat; split; [lia|intros; lia] | right; lia]. }
    destruct (getitem_in_range data e) as (b0 & -> & Hb0); [lia|].
    destruct (getitem_in_range data (e + 1)) as (b1 & Hg1 & Hb1); [lia|].
    pose proof (slice_two data e b0 b1 He Hb0 Hb1) as Hsl.
    assert (Hnext : ¬ terminator_at data e →
              ∃ e', scan_terminator fuel data limit (e + 2) = Ok e'
                    ∧ scan_stops data limit e e').
    { intros Hnt. destruct (IH (e + 2)) as (e' & Hs & (k & -> & Hk) & Hend); [lia..|].
      exists (e + 2 + 2 * Z.of_nat k). split; [done|]. split.
      - exists (S k). split; [lia|]. intros [|j] Hj.
        + by rewrite Z.add_0_r.
        + replace (e + 2 * Z.of_nat (S j)) with (e + 2 + 2 * Z.of_nat j) by lia.
          apply Hk. lia.
      - destruct Hend as [?|[? ?]]; [by left|right]. lia. }
    cbn [mbind result_bind].
    destruct (decide (byte_val b0 = 0)) as [Hz0|Hnz0].
    + rewrite Hg1. cbn [mbind result_bind].
      destruct (decide (byte_val b1 = 0)) as [Hz1|Hnz1].
      * exists e. split; [done|]. split.
        { exists 0%nat. split; [lia|]. intros; lia. }
        left. split; [done|]. unfold terminator_at. rewrite Hsl.
        apply byte_val_zero in Hz0, Hz1. by subst.
      * apply Hnext. unfold terminator_at. rewrite Hsl. intros [= _ ->]. done.
    + apply Hnext. unfold terminator_at. rewrite Hsl. intros [= -> _]. done.
Qed.

(** [_read_null_terminated_utf16] from a non-negative offset returns, and
    what it returns. *)
Lemma read_null_terminated_spec (data : bytes) offset max_len :
  0 <= offset →
  ∃ end_, _read_null_terminated_utf16 data offset max_len
          = Ok (decode_utf16le_replace (slice data offset end_), end_ + 2)
          ∧ scan_stops data (Z.min (offset + max_len) (len data - 1)) offset end_.
Proof.
  intros Ho. unfold _read_null_terminated_utf16.
  destruct (scan_terminator_spec (S (length data)) data
              (Z.min (offset + max_len) (len data - 1)) offset) as (e' & -> & Hstop);
    [lia | lia | unfold len; lia |].
  exists e'. split; [|done]. cbn [mbind result_bind].
  by rewrite decode_utf16le_fallback.
Qed.

(** *** Record decoding returns *)

Lemma unpack_H_Ok bs : length bs = 2%nat → unpack_H bs = Ok (int_from_bytes_little bs).
Proof. intros H. unfold unpack_H. by rewrite decide_True. Qed.

Ltac unpack_fixed :=
  rewrite ?unpack_I_Ok, ?unpack_H_Ok by (rewrite length_slice by lia; lia);
  cbn [mbind result_bind].

Lemma mapM_result_returns {A B} (f : A → result B) (l : list A) :
  (∀ x, f x ≠ OutOfFuel) → mapM f l ≠ OutOfFuel.
Proof.
  intros Hf. induction l as [|x l IH]; [done|].
  cbn [mapM]. specialize (Hf x). destruct (f x); [|done..].
  cbn [mbind result_bind]. by destruct (mapM f l).
Qed.

Lemma _parse_sid_returns (data : bytes) : ∃ sid, _parse_sid data = Ok sid.
Proof.
  unfold _parse_sid. case_decide; [eauto|].
  assert (parse_sid_body data ≠ OutOfFuel) as Hbody.
  { unfold parse_sid_body.
    assert (∀ i, getitem data i ≠ OutOfFuel) as Hget.
    { intros i. unfold getitem. repeat case_decide; try done; by destruct (data !! _). }
    pose proof (Hget 0). destruct (getitem data 0); [|done..].
    pose proof (Hget 1). destruct (getitem data 1); [|done..].
    cbn [mbind result_bind]. case_decide; [done|].
    match goal with |- (mapM ?f ?l ≫= _) ≠ _ =>
      pose proof (mapM_result_returns f l) as HM; destruct (mapM f l) end;
      cbn [mbind result_bind]; [done|done|].
    exfalso. apply HM; [|done]. intros i. unfold unpack_I.
    case_decide; cbn [mbind result_bind]; done. }
  destruct (parse_sid_body data); [eauto|eauto|done].
Qed.

Lemma read_strings_returns n (raw : bytes) record_size str_pos acc :
  0 <= str_pos → ∃ strings, read_strings n raw record_size str_pos acc = Ok strings.
Proof.
  revert str_pos acc. induction n as [|n IH]; intros str_pos acc Hpos; [by eexists|].
  cbn [read_strings]. case_decide; [by eexists|].
  destruct (read_null_terminated_spec raw str_pos (record_size - str_pos) Hpos)
    as (e & -> & (k & -> & _) & _).
  cbn [mbind result_bind]. apply IH. lia.
Qed.

(** Over a span that holds the fixed 56-byte block, no step of the decoding
    raises. *)
Lemma decode_record_returns (raw : bytes) record_size :
  56 <= len raw →
  ∃ record, decode_record raw record_size = Ok record ∧ raw_record record = raw.
Proof.
  intros Hlen. unfold decode_record. unpack_fixed.
  destruct (read_null_terminated_spec raw EVENTLOGRECORD_HEADER_SIZE DEFAULT_MAX_LEN)
    as (e1 & -> & (k1 & -> & _) & _); [done|]. cbn [mbind result_bind].
  destruct (read_null_terminated_spec raw
              (EVENTLOGRECORD_HEADER_SIZE + 2 * Z.of_nat k1 + 2) DEFAULT_MAX_LEN)
    as (e2 & -> & _); [unfold EVENTLOGRECORD_HEADER_SIZE; lia|]. cbn [mbind result_bind].
  match goal with |- context [if ?c then _parse_sid ?d else Ok None] =>
    assert (∃ sid, (if c then _parse_sid d else Ok None) = Ok sid) as [sid ->]
      by (destruct c; [apply _parse_sid_returns | eauto]) end.
  cbn [mbind result_bind].
  match goal with |- context [if ?c then read_strings ?n ?r ?s ?p ?a else Ok []] =>
    assert (∃ ss, (if c then read_strings n r s p a else Ok []) = Ok ss) as [ss ->]
      by (destruct c as [(?&?&?)|]; [apply read_strings_returns; lia | eauto]) end.
  cbn [mbind result_bind]. eexists. split; [done|done].
Qed.

(** [_parse_event_record] returns whenever the 8-byte prefix at [offset]
    lies in the buffer. *)
Lemma _parse_event_record_returns (data : bytes) offset :
  0 <= offset → offset + 8 <= len data →
  ∃ record next_offset error,
    _parse_event_record data offset = Ok (record, next_offset, error)
    ∧ (is_Some record → error = None).
Proof.
  intros Ho Hlen. unfold _parse_event_record.
  destruct (decide (offset + 8 > len data)); [lia|].
  rewrite unpack_I_slice by lia. cbn [mbind result_bind].
  repeat case_decide; try (do 3 eexists; split; [done|]; by intros [? [=]]).
  destruct (decode_record_returns
              (slice data offset (offset + int_from_bytes_little (slice data offset (offset + 4))))
              (int_from_bytes_little (slice data offset (offset + 4)))) as (r & -> & _).
  { unfold EVENTLOGRECORD_HEADER_SIZE in *.
    unfold len at 1. rewrite length_slice by lia. lia. }
  do 3 eexists. split; [done|]. done.
Qed.

(** *** The header *)

Lemma len_EVT_SIGNATURE : len EVT_SIGNATURE = 4.
Proof. reflexivity. Qed.

Lemma EOF_prefix_not_signature : slice_to EVT_EOF_SIGNATURE 4 ≠ EVT_SIGNATURE.
Proof. by vm_compute. Qed.

(** The header of a buffer that holds 48 bytes and the magic: every field
    is the little-endian word at its offset. *)
Lemma _parse_header_returns (data : bytes) :
  48 <= len data → slice data 4 8 = EVT_SIGNATURE →
  ∃ h, _parse_header data = Ok h
       ∧ start_offset h = int_from_bytes_little (slice data 16 20)
       ∧ flags h = int_from_bytes_little (slice data 36 40)
       ∧ 0 <= start_offset h.
Proof.
  intros Hlen Hsig. unfold _parse_header, EVT_HEADER_SIZE.
  destruct (decide (len data < 48)); [lia|]. unpack_fixed.
  rewrite decide_False by (by intros []).
  eexists. split; [done|]. cbn. split; [done|]. split; [done|].
  apply int_from_bytes_little_range.
Qed.

(** A buffer of 48 bytes or more without the magic is refused. *)
Lemma _parse_header_bad_magic (data : bytes) :
  48 <= len data → slice data 4 8 ≠ EVT_SIGNATURE →
  ∃ msg, _parse_header data = Raise (FileValidationError msg).
Proof.
  intros Hlen Hsig. unfold _parse_header, EVT_HEADER_SIZE.
  destruct (decide (len data < 48)); [lia|]. unpack_fixed.
  rewrite decide_True by done. eauto.
Qed.

(** The lazy walker decodes the header from the first 48 bytes of the map;
    that is the header of the whole buffer. *)
Lemma _parse_header_prefix (mm : bytes) :
  48 <= len mm → _parse_header (slice_to mm EVT_HEADER_SIZE) = _parse_header mm.
Proof.
  intros Hlen. unfold _parse_header, slice_to, EVT_HEADER_SIZE.
  assert (len (slice mm 0 48) = 48) as ->.
  { unfold len at 1. rewrite length_slice by lia. lia. }
  destruct (decide (48 < 48)); [lia|]. destruct (decide (len mm < 48)); [lia|].
  assert (∀ c d, 0 <= c → 0 <= d → d <= 48 → slice (slice mm 0 48) c d = slice mm c d) as Hs.
  { intros c d ? ? ?. by rewrite slice_slice by lia. }
  by rewrite !Hs by lia.
Qed.

(** *** The walker terminates *)

(** An iteration entered with the cursor in the buffer either leaves the
    loop or moves the cursor forward; it never raises. *)
Lemma walk_body_progress (data : bytes) st :
  0 <= w_offset st → w_offset st < len data - 8 →
  (∃ st', walk_body data st = Break st')
  ∨ (∃ st', walk_body data st = Continue st' ∧ w_offset st < w_offset st').
Proof.
  intros Ho Hlt. unfold walk_body.
  case_decide; [left; eauto|].
  case_decide as Hsig.
  - destruct (decide (find data EVT_SIGNATURE (w_offset st + 4) = -1)) as [|Hfound];
      [left; eauto|].
    right. eexists. split; [done|]. cbn.
    enough (w_offset st + 4 < find data EVT_SIGNATURE (w_offset st + 4)) by lia.
    eapply find_progress; [lia | | done | done].
    rewrite len_EVT_SIGNATURE.
    by replace (w_offset st + 4 + 4) with (w_offset st + 8) by lia.
  - destruct (_parse_event_record_returns data (w_offset st))
      as (record & next_offset & error & -> & _); [lia..|].
    case_decide; [left; eauto|]. right. eexists. split; [done|]. cbn. lia.
Qed.

(** With fuel for every byte left, the walk returns. *)
Lemma walk_returns fuel (data : bytes) st :
  0 <= w_offset st → len data - 8 - w_offset st <= Z.of_nat fuel →
  ∃ st', walk fuel data st = Ok st'.
Proof.
  revert st. induction fuel as [|fuel IH]; intros st Ho Hfuel.
  - simpl. destruct (decide (w_offset st < len data - 8)); [lia|eauto].
  - cbn [walk]. destruct (decide (w_offset st < len data - 8)); [|eauto].
    destruct (walk_body_progress data st) as [[st' ->]|(st' & -> & Hlt)]; [done..|eauto|].
    apply IH; lia.
Qed.

(** The number of records never exceeds the number of frames counted. *)
Lemma walk_count_invariant fuel (data : bytes) st st' :
  walk fuel data st = Ok st' →
  len (w_records st) <= w_record_count st →
  len (w_records st') <= w_record_count st'.
Proof.
  revert st. induction fuel as [|fuel IH]; intros st; cbn [walk];
    case_decide; try done; try (by intros [= ->]).
  unfold walk_body.
  repeat case_decide; try (by intros [= ->]); try (intros Hw Hinv; by eapply IH).
  destruct (_parse_event_record data (w_offset st)) as [[[record next_offset] error]| |];
    [|done..].
  assert (len (w_records st ++ option_list record) <= len (w_records st) + 1) as Hone.
  { rewrite len_app. destruct record; unfold len; simpl; lia. }
  case_decide.
  - intros [= <-] Hinv. cbn. lia.
  - intros Hw Hinv. eapply IH in Hw; [done|]. cbn. lia.
Qed.

(** The lazy walk yields what the eager walk appends to its records. *)
Lemma walk_iter_walk fuel (data : bytes) st st' :
  walk fuel data st = Ok st' →
  ∃ yielded, iter_walk fuel data (w_offset st) = (yielded, Ok ())
             ∧ w_records st' = w_records st ++ yielded.
Proof.
  revert st. induction fuel as [|fuel IH]; intros st; cbn [walk iter_walk];
    case_decide; try done;
    try (intros [= ->]; exists []; by rewrite app_nil_r).
  unfold walk_body.
  case_decide; [intros [= ->]; exists []; by rewrite app_nil_r|].
  case_decide.
  { case_decide; [intros [= ->]; exists []; by rewrite app_nil_r|].
    intros Hw. by apply IH in Hw. }
  destruct (_parse_event_record data (w_offset st)) as [[[record next_offset] error]| |];
    [|done..].
  case_decide.
  - intros [= <-]. by eexists.
  - intros Hw. apply IH in Hw as (later & Hi & Hr). cbn in Hi, Hr.
    rewrite Hi. eexists. split; [done|]. by rewrite Hr, app_assoc.
Qed.

(** The header's start offset is never negative. *)
Lemma _parse_header_start (data : bytes) h :
  48 <= len data → _parse_header data = Ok h → 0 <= start_offset h.
Proof.
  intros Hlen Hh. destruct (decide (slice data 4 8 = EVT_SIGNATURE)) as [Hs|Hs].
  - destruct (_parse_header_returns data Hlen Hs) as (h' & Hh' & _ & _ & ?). congruence.
  - destruct (_parse_header_bad_magic data Hlen Hs) as (msg & ?). congruence.
Qed.

Lemma _parse_header_not_stuck (data : bytes) : 48 <= len data → _parse_header data ≠ OutOfFuel.
Proof.
  intros Hlen Hh. destruct (decide (slice data 4 8 = EVT_SIGNATURE)) as [Hs|Hs].
  - destruct (_parse_header_returns data Hlen Hs) as (h' & Hh' & _). congruence.
  - destruct (_parse_header_bad_magic data Hlen Hs) as (msg & ?). congruence.
Qed.

(** The outcome of the eager parse, from the walk it ran. *)
Lemma parse_evt_data_outcome input_path (data : bytes) r :
  parse_evt_data input_path data = Ok r →
  ∃ st, walk (S (length data)) data (walker_at (start_offset (header r))) = Ok st
        ∧ _parse_header data = Ok (header r)
        ∧ 48 <= len data
        ∧ records r = w_records st ∧ total_records r = w_record_count st
        ∧ valid_records r = len (w_records st) ∧ errors r = w_errors st
        ∧ parse_errors r = len (w_errors st).
Proof.
  unfold parse_evt_data, EVT_HEADER_SIZE. case_decide; [done|].
  destruct (_parse_header data) as [h| |]; [|done..]. cbn [mbind result_bind].
  fold (walker_at (start_offset h)).
  destruct (walk _ data _) as [st| |] eqn:Hw; [|done..]. cbn [mbind result_bind].
  intros [= <-]. cbn. exists st. repeat split; try done. lia.
Qed.

(** * The claims *)

(** C1. For every input file the eager parse accepts, the outcome has
    [valid_records ≤ total_records], where [valid_records] is the number of
    records decoded, and its success flag is set exactly when at least one
    record was decoded or no frame was counted. *)
Theorem parse_outcome_counts (fs : gmap string bytes) (input_file : string) r :
  parse_evt_file fs input_file = Ok r →
  valid_records r <= total_records r
  ∧ valid_records r = len (records r)
  ∧ (success r = true ↔ records r ≠ [] ∨ total_records r = 0).
Proof.
  unfold parse_evt_file. destruct (fs !! input_file) as [data|]; [|done].
  intros (st & Hw & _ & _ & Hr & Ht & Hv & _)%parse_evt_data_outcome.
  apply walk_count_invariant in Hw; [|done].
  rewrite Hv, Ht, Hr. split; [done|]. split; [done|].
  unfold success. rewrite Hv, Ht, orb_true_iff, !bool_decide_eq_true.
  assert (len (w_records st) > 0 ↔ w_records st ≠ []) as ->; [|done].
  destruct (w_records st); unfold len; simpl; split; try done; lia.
Qed.

Lemma parse_outcome_counts_witness :
  ∃ r, parse_evt_file {[ "System.evt"%string := sample_log ]} "System.evt" = Ok r
       ∧ valid_records r <= total_records r
       ∧ valid_records r = len (records r)
       ∧ (success r = true ↔ records r ≠ [] ∨ total_records r = 0).
Proof.
  eexists. split; [vm_compute; reflexivity|].
  apply (parse_outcome_counts {[ "System.evt"%string := sample_log ]} "System.evt").
  vm_compute. reflexivity.
Defined.

(** C10. A buffer of 48 bytes or more that carries the header magic is
    parsed to an outcome whatever its start-offset field holds; when the
    start offset is at or beyond [len − 8], the outcome has no record, no
    frame counted, no error, and is a success. *)
Theorem parse_returns_for_any_start_offset
    (fs : gmap string bytes) (input_file : string) (data : bytes) :
  fs !! input_file = Some data →
  48 <= len data → slice data 4 8 = EVT_SIGNATURE →
  ∃ r, parse_evt_file fs input_file = Ok r
       ∧ start_offset (header r) = int_from_bytes_little (slice data 16 20)
       ∧ (start_offset (header r) >= len data - 8 →
          records r = [] ∧ total_records r = 0 ∧ errors r = [] ∧ success r = true).
Proof.
  intros Hfs Hlen Hsig. unfold parse_evt_file. rewrite Hfs.
  unfold parse_evt_data, EVT_HEADER_SIZE. destruct (decide (len data < 48)); [lia|].
  destruct (_parse_header_returns data Hlen Hsig) as (h & -> & Hstart & _ & Hpos).
  cbn [mbind result_bind].
  destruct (walk_returns (S (length data)) data (walker_at (start_offset h)))
    as [st Hw]; [done | cbn; unfold len; lia |].
  unfold walker_at in Hw. rewrite Hw. cbn [mbind result_bind].
  eexists. split; [done|]. cbn [header start_offset records total_records errors].
  split; [done|]. intros Hge.
  cbn [walk] in Hw. rewrite decide_False in Hw by (cbn; lia).
  injection Hw as <-. done.
Qed.

Lemma parse_returns_for_any_start_offset_witness :
  ∃ r, parse_evt_file {[ "Empty.evt"%string := sample_header 4000000000 0 ]} "Empty.evt" = Ok r
       ∧ start_offset (header r) = 4000000000
       ∧ records r = [] ∧ total_records r = 0 ∧ errors r = [] ∧ success r = true.
Proof.
  destruct (parse_returns_for_any_start_offset
              {[ "Empty.evt"%string := sample_header 4000000000 0 ]} "Empty.evt"
              (sample_header 4000000000 0))
    as (r & Hr & Hstart & Hrest);
    [vm_compute; reflexivity | vm_compute; discriminate | vm_compute; reflexivity |].
  exists r. split; [exact Hr|]. split; [exact Hstart|].
  apply Hrest. rewrite Hstart. vm_compute. discriminate.
Defined.


(** C9. The buffer [prefix_only_log] is a valid header with start offset 48
    followed by eight bytes, a declared size of 100 and the record magic, so
    that [cursor + 8 = len]: the record decoder, asked about that frame,
    reports a record that extends past the end of the file, but both walkers
    leave their loop before looking at it, and the outcome counts no frame
    and holds no error. *)
Theorem last_prefix_not_examined :
  len prefix_only_log = 56
  ∧ slice prefix_only_log 52 56 = EVT_SIGNATURE
  ∧ _parse_event_record prefix_only_log 48
    = Ok (None, 56, Some "Record extends past end of file at offset 48"%string)
  ∧ (∃ r, parse_evt_data "Security.evt" prefix_only_log = Ok r
          ∧ start_offset (header r) = 48
          ∧ total_records r = 0 ∧ errors r = [] ∧ records r = [] ∧ success r = true)
  ∧ iter_evt_data prefix_only_log = ([], Ok ()).
Proof.
  split; [reflexivity|]. split; [reflexivity|]. split; [vm_compute; reflexivity|].
  split; [|vm_compute; reflexivity].
  eexists. split; [vm_compute; reflexivity|]. cbn. done.
Qed.

(** C2. The buffer [short_size_prefix_log] is a valid header with start
    offset 48 followed by eight bytes, a declared size of 55 and the record
    magic, so that [cursor + 8 = len].  The record decoder, asked about that
    frame, reports an invalid record size and a next offset of 52, four
    ahead; but the walk leaves its loop before it looks at the frame, and
    the outcome counts no frame and holds no error. *)
Theorem invalid_size_at_last_prefix_not_counted :
  len short_size_prefix_log = 56
  ∧ slice short_size_prefix_log 52 56 = EVT_SIGNATURE
  ∧ int_from_bytes_little (slice short_size_prefix_log 48 52) = 55
  ∧ _parse_event_record short_size_prefix_log 48
    = Ok (None, 52, Some "Invalid record size at offset 48: 55"%string)
  ∧ walk (S (length short_size_prefix_log)) short_size_prefix_log (walker_at 48)
    = Ok (walker_at 48)
  ∧ (∃ r, parse_evt_data "Security.evt" short_size_prefix_log = Ok r
          ∧ start_offset (header r) = 48
          ∧ total_records r = 0 ∧ parse_errors r = 0 ∧ errors r = []
          ∧ records r = [])
  ∧ iter_evt_data short_size_prefix_log = ([], Ok ()).
Proof.
  split; [reflexivity|]. split; [reflexivity|]. split; [vm_compute; reflexivity|].
  split; [vm_compute; reflexivity|]. split; [vm_compute; reflexivity|].
  split; [|vm_compute; reflexivity].
  eexists. split; [vm_compute; reflexivity|]. cbn. done.
Qed.

(** C4. The buffer [truncated_prefix_log] is the sample header and record
    followed by eight bytes, a declared size of 100 and the record magic,
    so that at cursor 124 [cursor + 8 = len] and [cursor + size] is past the
    end.  The record decoder, asked about that frame, reports a record that
    extends past the end of the file; but the walk leaves its loop before
    it looks at the frame: the outcome holds the record emitted before, no
    error, and a frame count of one. *)
Theorem truncated_frame_at_last_prefix_not_counted :
  len truncated_prefix_log = 132
  ∧ slice truncated_prefix_log 128 132 = EVT_SIGNATURE
  ∧ int_from_bytes_little (slice truncated_prefix_log 124 128) = 100
  ∧ _parse_event_record truncated_prefix_log 124
    = Ok (None, 132, Some "Record extends past end of file at offset 124"%string)
  ∧ (∃ r, parse_evt_data "Security.evt" truncated_prefix_log = Ok r
          ∧ start_offset (header r) = 48
          ∧ total_records r = 1 ∧ valid_records r = 1
          ∧ parse_errors r = 0 ∧ errors r = []
          ∧ (source <$> records r) = [unicode_of_string "abc"])
  ∧ (iter_evt_data truncated_prefix_log).2 = Ok ()
  ∧ len (iter_evt_data truncated_prefix_log).1 = 1.
Proof.
  split; [reflexivity|]. split; [reflexivity|]. split; [vm_compute; reflexivity|].
  split; [vm_compute; reflexivity|].
  split; [|split; vm_compute; reflexivity].
  eexists. split; [vm_compute; reflexivity|]. cbn. done.
Qed.



(** C3. At a cursor where the four bytes at [cursor + 4] are neither the
    record magic nor the start of the EOF marker, the walker looks for the
    first occurrence [P] of the magic from [cursor + 4] on.  When there is
    one, it lies after [cursor + 4] and the walk goes on with the cursor at
    [P − 4], its count, errors and records untouched; the lazy walker yields
    nothing for the span.  When there is none, the walk ends in the state it
    had, and the lazy walker yields nothing more. *)
Theorem walker_resync (data : bytes) st fuel :
  let offset := w_offset st in
  let P := find data EVT_SIGNATURE (offset + 4) in
  0 <= offset → offset < len data - 8 →
  slice data (offset + 4) (offset + 8) ≠ EVT_SIGNATURE →
  slice data (offset + 4) (offset + 8) ≠ slice_to EVT_EOF_SIGNATURE 4 →
  (P ≠ -1 →
     offset + 4 < P ∧ slice data P (P + 4) = EVT_SIGNATURE
     ∧ (∀ j, offset + 4 <= j < P → slice data j (j + 4) ≠ EVT_SIGNATURE)
     ∧ walk (S fuel) data st
       = walk fuel data {| w_offset := P - 4; w_record_count := w_record_count st;
                           w_errors := w_errors st; w_records := w_records st |}
     ∧ iter_walk (S fuel) data offset = iter_walk fuel data (P - 4))
  ∧ (P = -1 →
     (∀ j, offset + 4 <= j → j + 4 <= len data → slice data j (j + 4) ≠ EVT_SIGNATURE)
     ∧ walk (S fuel) data st = Ok st
     ∧ iter_walk (S fuel) data offset = ([], Ok ())).
Proof.
  intros offset P Ho Hlt Hsig Heof.
  assert (∀ j, offset + 4 <= j → j + 4 <= len data →
               slice data j (j + 4) = EVT_SIGNATURE → P ≠ -1 ∧ P <= j) as Hfirst.
  { intros j Hj Hlen Hs. apply (find_first data EVT_SIGNATURE (offset + 4) j);
      rewrite ?len_EVT_SIGNATURE; done || lia. }
  split.
  - intros HP.
    destruct (find_hit data EVT_SIGNATURE (offset + 4) P) as (Hle & Hin & Hat);
      [lia | done | done |]. rewrite len_EVT_SIGNATURE in Hin, Hat.
    assert (offset + 4 < P).
    { eapply find_progress; [| |reflexivity|done]; [lia|].
      rewrite len_EVT_SIGNATURE. by replace (offset + 4 + 4) with (offset + 8) by lia. }
    split; [done|]. split; [done|]. split.
    { intros j Hj Hs. destruct (Hfirst j) as [_ ?]; [lia | lia | done | lia]. }
    cbn [walk iter_walk]. fold offset. rewrite !decide_True by done.
    unfold walk_body. fold offset. rewrite !(decide_False _ _ Heof).
    rewrite !(decide_True _ _ Hsig). fold P. by rewrite !(decide_False _ _ HP).
  - intros HP. split.
    { intros j Hj Hlen Hs. by destruct (Hfirst j). }
    cbn [walk iter_walk]. fold offset. rewrite !decide_True by done.
    unfold walk_body. fold offset. rewrite !(decide_False _ _ Heof).
    rewrite !(decide_True _ _ Hsig). fold P. by rewrite !(decide_True _ _ HP).
Qed.

Lemma walker_resync_witness :
  walk 1 padded_log (walker_at 48) = walk 0 padded_log (walker_at 56)
  ∧ walk 1 bad_magic_log (walker_at 48) = Ok (walker_at 48)
  ∧ iter_walk 1 bad_magic_log 48 = ([], Ok ()).
Proof.
  split.
  - apply (walker_resync padded_log (walker_at 48) 0);
      [vm_compute; discriminate | vm_compute; reflexivity | vm_compute; discriminate
      | vm_compute; discriminate | vm_compute; discriminate].
  - apply (walker_resync bad_magic_log (walker_at 48) 0);
      [vm_compute; discriminate | vm_compute; reflexivity | vm_compute; discriminate
      | vm_compute; discriminate | vm_compute; reflexivity].
Defined.



(** C6. On every file, the lazy walker yields exactly the records of the
    eager outcome, in the same order, and then finishes; a file the eager
    parse refuses makes the lazy walker raise the same exception before it
    yields anything. *)
Theorem lazy_yields_eager_records (fs : gmap string bytes) (input_file : string) :
  match parse_evt_file fs input_file with
  | Ok r => iter_evt_records fs input_file = (records r, Ok ())
  | Raise e => iter_evt_records fs input_file = ([], Raise e)
  | OutOfFuel => False
  end.
Proof.
  unfold parse_evt_file, iter_evt_records.
  destruct (fs !! input_file) as [data|]; [|done].
  unfold parse_evt_data, iter_evt_data. case_decide as Hlen; [done|].
  unfold EVT_HEADER_SIZE in Hlen.
  rewrite _parse_header_prefix by lia.
  pose proof (_parse_header_not_stuck data ltac:(lia)) as Hns.
  destruct (_parse_header data) as [h| |] eqn:Hh; [|done..].
  cbn [mbind result_bind].
  apply _parse_header_start in Hh; [|lia].
  destruct (walk_returns (S (length data)) data (walker_at (start_offset h)))
    as [st Hw]; [done | cbn; unfold len; lia |].
  unfold walker_at in Hw. rewrite Hw. cbn [mbind result_bind records].
  apply walk_iter_walk in Hw as (yielded & Hi & Hr). cbn [w_offset w_records] in Hi, Hr.
  by rewrite Hi, Hr.
Qed.

(** C8. The bytes built from revision 1, two sub-authorities, authority 5
    and sub-authorities 21 and 42 decode to "S-1-5-21-42"; bytes shorter
    than [8 + 4·N], [N] being the count they declare, and bytes too short to
    declare one, decode to [None]. *)
Theorem sid_decoding :
  _parse_sid (sid_bytes 1 5 [21; 42]) = Ok (Some "S-1-5-21-42"%string)
  ∧ ∀ data : bytes,
      (len data < 8 ∨ ∃ n, data !! 1%nat = Some n ∧ len data < 8 + 4 * byte_val n) →
      _parse_sid data = Ok None.
Proof.
  split; [vm_compute; reflexivity|].
  intros data Hshort. unfold _parse_sid.
  destruct (decide (data = [] ∨ len data < 8)) as [|Hlong]; [done|].
  destruct Hshort as [?|(n & Hn & Hlen)]; [exfalso; apply Hlong; by right|].
  assert (8 <= len data) by (apply Z.nlt_ge; intros ?; apply Hlong; by right).
  unfold parse_sid_body.
  destruct (getitem_in_range data 0) as (b0 & -> & _); [lia|].
  destruct (getitem_in_range data 1) as (b1 & -> & Hb1); [lia|].
  change (Z.to_nat 1) with 1%nat in Hb1. assert (b1 = n) as -> by congruence.
  cbn [mbind result_bind]. by rewrite decide_True by lia.
Qed.

Lemma sid_decoding_witness :
  _parse_sid (sid_bytes 1 5 [21]) = Ok (Some "S-1-5-21"%string)
  ∧ _parse_sid (take 15 (sid_bytes 1 5 [21; 42])) = Ok None.
Proof.
  split; [vm_compute; reflexivity|].
  apply (proj2 sid_decoding). right. exists Byte.x02.
  split; [vm_compute; reflexivity | vm_compute; reflexivity].
Defined.

(** C7, as the specification words it, fails: with the default [max_len]
    the scan of [long_text] ends at byte 1024, after 512 code units; the
    two bytes there are not a zero code unit, 1024 code units have not been
    read, the first zero code unit is at byte 1200 and the buffer goes on to
    byte 1202. *)
Lemma scan_cap_counterexample :
  ∃ text, _read_null_terminated_utf16 long_text 0 DEFAULT_MAX_LEN = Ok (text, 1024 + 2)
          ∧ len text = 512
          ∧ ¬ stops_at_terminator_or_cap long_text 0 1024 1024
          ∧ terminator_at long_text 1200
          ∧ len long_text = 1202.
Proof.
  eexists. split; [vm_compute; reflexivity|].
  split; [vm_compute; reflexivity|]. split; [|split; vm_compute; reflexivity].
  intros [Hterm|Hcap]; [|lia]. vm_compute in Hterm. discriminate Hterm.
Qed.

(** C7, amended. From a non-negative offset the scan returns; it advances
    by whole code units, passes no zero code unit, and ends at the first
    zero code unit it meets below [min(offset + max_len, len(data) − 1)], or
    at the first even distance at or past that bound: [max_len] counts
    bytes, so the default of 1024 lets at most 512 code units through.  The
    text is the decoding of the bytes passed and the next offset is two past
    the end.  For "abc" and a zero code unit, followed by anything, the text
    is "abc" and the next offset is 8, just past the terminator. *)
Theorem read_null_terminated_scan :
  (∀ (data : bytes) offset max_len,
     0 <= offset →
     ∃ end_,
       _read_null_terminated_utf16 data offset max_len
       = Ok (decode_utf16le_replace (slice data offset end_), end_ + 2)
       ∧ scan_stops data (Z.min (offset + max_len) (len data - 1)) offset end_
       ∧ (max_len = DEFAULT_MAX_LEN → end_ - offset <= 2 * 512))
  ∧ (∀ rest : bytes,
       _read_null_terminated_utf16 (utf16z "abc" ++ rest) 0 DEFAULT_MAX_LEN
       = Ok (unicode_of_string "abc", 8)).
Proof.
  assert (∀ (data : bytes) offset max_len,
     0 <= offset →
     ∃ end_,
       _read_null_terminated_utf16 data offset max_len
       = Ok (decode_utf16le_replace (slice data offset end_), end_ + 2)
       ∧ scan_stops data (Z.min (offset + max_len) (len data - 1)) offset end_
       ∧ (max_len = DEFAULT_MAX_LEN → end_ - offset <= 2 * 512)) as Hscan.
  { intros data offset max_len Ho.
    destruct (read_null_terminated_spec data offset max_len Ho) as (e & He & Hstop).
    exists e. split; [done|]. split; [done|]. intros ->.
    destruct Hstop as [(k & -> & _) Hend]. unfold DEFAULT_MAX_LEN in Hend. lia. }
  split; [exact Hscan|]. intros rest.
  destruct (Hscan (utf16z "abc" ++ rest) 0 DEFAULT_MAX_LEN) as (e & -> & Hstop & _); [done|].
  assert (terminator_at (utf16z "abc" ++ rest) 6) as Hterm.
  { unfold terminator_at. by rewrite slice_app_l by (vm_compute; congruence). }
  assert (len (utf16z "abc" ++ rest) = 8 + len rest) as Hlen by (by rewrite len_app).
  pose proof (len_nonneg rest).
  destruct Hstop as [(k & -> & Hnone) Hend].
  assert (k = 3%nat) as ->.
  { destruct (decide (k <= 3)%nat) as [Hle|Hgt].
    - destruct Hend as [[_ Hz]|[Hlim _]].
      + unfold terminator_at in Hz.
        destruct k as [|[|[|[|k]]]]; try lia; try done;
          rewrite slice_app_l in Hz by (vm_compute; congruence);
          vm_compute in Hz; discriminate Hz.
      + unfold DEFAULT_MAX_LEN in Hlim. lia.
    - exfalso. apply (Hnone 3%nat); [lia|]. exact Hterm. }
  rewrite slice_app_l by (vm_compute; congruence). reflexivity.
Qed.

Lemma read_null_terminated_scan_witness :
  ∃ end_,
    _read_null_terminated_utf16 long_text 0 DEFAULT_MAX_LEN
    = Ok (decode_utf16le_replace (slice long_text 0 end_), end_ + 2)
    ∧ end_ - 0 <= 2 * 512.
Proof.
  destruct (proj1 read_null_terminated_scan long_text 0 DEFAULT_MAX_LEN)
    as (e & He & _ & Hcap); [vm_compute; discriminate|].
  exists e. split; [exact He | apply Hcap; reflexivity].
Defined.

(** *** Writing into a file *)

Section write_at.
Implicit Types (buf bs : bytes) (pos a b : Z).

Lemma slice_app_r {A} (l1 l2 : list A) a b :
  len l1 <= a → a <= b → slice (l1 ++ l2) a b = slice l2 (a - len l1) (b - len l1).
Proof.
  intros Ha Hab. pose proof (len_nonneg l1). unfold len in *.
  rewrite !slice_nonneg by lia. rewrite drop_app_ge by lia.
  f_equal; [lia | f_equal; lia].
Qed.

Lemma slice_drop {A} (l : list A) q a b :
  0 <= q → 0 <= a → 0 <= b →
  slice (drop (Z.to_nat q) l) a b = slice l (q + a) (q + b).
Proof.
  intros. rewrite !slice_nonneg by lia. rewrite drop_drop.
  f_equal; [lia | f_equal; lia].
Qed.

Lemma write_at_length buf pos bs :
  length (write_at buf pos bs) = (length buf `max` (Z.to_nat pos + length bs))%nat.
Proof.
  unfold write_at. rewrite !length_app, length_take, length_replicate, length_drop. lia.
Qed.

Lemma len_write_at buf pos bs :
  0 <= pos → pos + len bs <= len buf → len (write_at buf pos bs) = len buf.
Proof. unfold len. rewrite write_at_length. lia. Qed.

(** A write is read back where it was made. *)
Lemma slice_write_at_same buf pos bs :
  0 <= pos → slice (write_at buf pos bs) pos (pos + len bs) = bs.
Proof.
  intros Hpos. unfold write_at. rewrite app_assoc.
  pose proof (len_nonneg bs).
  rewrite slice_app_r by (unfold len in *; rewrite ?length_app, ?length_take, ?length_replicate; lia).
  assert (len (take (Z.to_nat pos) buf ++ replicate (Z.to_nat pos - length buf) Byte.x00) = pos)
    as -> by (unfold len; rewrite length_app, length_take, length_replicate; lia).
  rewrite Z.sub_diag. replace (pos + len bs - pos) with (len bs) by lia.
  rewrite slice_app_l by (pose proof (len_nonneg bs); lia). apply slice_full.
Qed.

(** A write leaves what lies before it as it was. *)
Lemma slice_write_at_before buf pos bs a b :
  0 <= a → 0 <= b → b <= pos → pos <= len buf →
  slice (write_at buf pos bs) a b = slice buf a b.
Proof.
  intros Ha Hb Hbp Hpl. unfold write_at, len in *.
  rewrite slice_app_l by (unfold len; rewrite ?length_take; lia).
  rewrite <- (take_drop (Z.to_nat pos) buf) at 2.
  by rewrite slice_app_l by (unfold len; rewrite ?length_take; lia).
Qed.

(** A write inside the file leaves what lies after it as it was. *)
Lemma slice_write_at_after buf pos bs a b :
  0 <= pos → pos + len bs <= a → a <= b → pos + len bs <= len buf →
  slice (write_at buf pos bs) a b = slice buf a b.
Proof.
  intros Hpos Ha Hb Hl. unfold write_at. pose proof (len_nonneg bs). unfold len in *.
  replace (Z.to_nat pos - length buf)%nat with 0%nat by lia. cbn [replicate app].
  rewrite app_assoc.
  assert (len (take (Z.to_nat pos) buf ++ bs) = pos + Z.of_nat (length bs)) as Hlen
    by (unfold len; rewrite length_app, length_take; lia).
  rewrite slice_app_r by lia. rewrite Hlen.
  replace (Z.to_nat pos + length bs)%nat with (Z.to_nat (pos + Z.of_nat (length bs))) by lia.
  rewrite slice_drop by lia. f_equal; lia.
Qed.

End write_at.

(** *** The repair *)

(** Clearing the dirty bit drops bit 0 and keeps the rest. *)
Lemma clear_dirty v : Z.land v (Z.lnot EVT_FLAG_DIRTY) = 2 * (v / 2).
Proof.
  unfold EVT_FLAG_DIRTY. rewrite <- Z.ldiff_land.
  change 1 with (Z.ones 1) at 1. rewrite Z.ldiff_ones_r by lia.
  rewrite Z.shiftl_mul_pow2, Z.shiftr_div_pow2 by lia. change (2 ^ 1) with 2. lia.
Qed.

Lemma int_to_bytes4_Ok v : 0 <= v < 2 ^ 32 → int_to_bytes4 v = Ok (le_bytes 4 v).
Proof.
  intros Hv. unfold int_to_bytes4.
  destruct (decide (v < 0)); [lia|]. destruct (decide (2 ^ 32 <= v)); [lia|done].
Qed.

Lemma int_to_bytes4_too_big v :
  2 ^ 32 <= v → int_to_bytes4 v = Raise (OverflowError "int too big to convert").
Proof.
  intros Hv. unfold int_to_bytes4.
  destruct (decide (v < 0)); [lia|]. destruct (decide (2 ^ 32 <= v)); [done|lia].
Qed.

(** At most four bytes make a value below [2^32]. *)
Lemma int_from_slice4_range (buf : bytes) a :
  0 <= a → 0 <= int_from_bytes_little (slice buf a (a + 4)) < 2 ^ 32.
Proof.
  intros Ha. pose proof (int_from_bytes_little_range (slice buf a (a + 4))) as Hr.
  assert (len (slice buf a (a + 4)) <= 4) as Hl.
  { unfold len. rewrite slice_nonneg by lia. rewrite length_take. lia. }
  pose proof (len_nonneg (slice buf a (a + 4))).
  assert (256 ^ len (slice buf a (a + 4)) <= 256 ^ 4) by (apply Z.pow_le_mono_r; lia).
  change (2 ^ 32) with (256 ^ 4). lia.
Qed.

(** What [patch_copy] leaves in a file opened on [buf]. *)
Lemma patch_copy_run (buf : bytes) :
  let p := find buf EOF_SIGNATURE 0 in
  let cleared :=
    write_at buf 36 (le_bytes 4 (Z.land (flags_field buf) (Z.lnot EVT_FLAG_DIRTY))) in
  let current := int_from_bytes_little (slice buf (p + 24) (p + 28)) in
  let oldest := int_from_bytes_little (slice buf (p + 28) (p + 32)) in
  ∃ r f, patch_copy {| f_buf := buf; f_pos := 0 |} = (r, f)
    ∧ if decide (p >= 0) then
        if decide (2 ^ 32 <= p - 4 + 40) then
          r = Raise (OverflowError "int too big to convert") ∧ f_buf f = cleared
        else
          r = Ok ()
          ∧ f_buf f = write_at (write_at (write_at cleared 20 (le_bytes 4 (p - 4 + 40)))
                                  24 (le_bytes 4 current))
                        28 (le_bytes 4 oldest)
      else r = Ok () ∧ f_buf f = cleared.
Proof.
  intros p cleared current oldest.
  unfold patch_copy.
  cbv [mbind io_bind f_seek f_read_all f_read f_write io_lift f_buf f_pos mret io_ret].
  change (take (Z.to_nat 4) (drop (Z.to_nat EVT_FLAGS_OFFSET) buf))
    with (take (Z.to_nat 40 - Z.to_nat 36) (drop (Z.to_nat 36) buf)).
  rewrite <- (slice_nonneg buf 36 40) by lia. fold (flags_field buf).
  change (drop (Z.to_nat 0) buf) with buf. fold p current oldest.
  unfold EOF_RECORD_SIZE, END_OFFSET_LOCATION, CURRENT_RECORD_LOCATION,
    OLDEST_RECORD_LOCATION, EVT_FLAGS_OFFSET.
  rewrite int_to_bytes4_Ok.
  2: { rewrite clear_dirty. pose proof (int_from_slice4_range buf 36 ltac:(lia)) as Hr.
       change (36 + 4) with 40 in Hr. fold (flags_field buf) in Hr.
       pose proof (Z.div_mod (flags_field buf) 2 ltac:(lia)).
       pose proof (Z.mod_pos_bound (flags_field buf) 2 ltac:(lia)). lia. }
  fold cleared.
  destruct (decide (p >= 0)) as [Hp|Hp]; [|eexists _, _; split; [done|]; done].
  destruct (decide (2 ^ 32 <= p - 4 + 40)) as [Hbig|Hfit].
  - rewrite int_to_bytes4_too_big by done. eexists _, _. split; [done|]. done.
  - rewrite int_to_bytes4_Ok by lia.
    pose proof (int_from_slice4_range buf (p + 24) ltac:(lia)) as Hc.
    pose proof (int_from_slice4_range buf (p + 28) ltac:(lia)) as Ho.
    replace (p + 24 + 4) with (p + 28) in Hc by lia.
    replace (p + 28 + 4) with (p + 32) in Ho by lia.
    fold current in Hc. fold oldest in Ho.
    rewrite (int_to_bytes4_Ok current), (int_to_bytes4_Ok oldest) by done.
    eexists _, _. split; [done|]. done.
Qed.

Section words.
Implicit Types (buf : bytes) (pos a b v : Z).

Lemma len_le_bytes n v : len (le_bytes n v) = Z.of_nat n.
Proof. unfold len. by rewrite length_le_bytes. Qed.

Lemma word_len buf pos v :
  0 <= pos → len (write_at buf pos (le_bytes 4 v)) = Z.max (len buf) (pos + 4).
Proof. intros. unfold len. rewrite write_at_length, length_le_bytes. lia. Qed.

Lemma word_same buf pos v b :
  0 <= pos → b = pos + 4 → slice (write_at buf pos (le_bytes 4 v)) pos b = le_bytes 4 v.
Proof.
  intros ? ->. pose proof (slice_write_at_same buf pos (le_bytes 4 v)) as Hs.
  rewrite len_le_bytes in Hs. by apply Hs.
Qed.

Lemma word_after buf pos v a b :
  0 <= pos → pos + 4 <= a → a <= b → pos + 4 <= len buf →
  slice (write_at buf pos (le_bytes 4 v)) a b = slice buf a b.
Proof. intros. apply slice_write_at_after; rewrite ?len_le_bytes; lia. Qed.

Lemma word_before buf pos v a b :
  0 <= a → 0 <= b → b <= pos → pos <= len buf →
  slice (write_at buf pos (le_bytes 4 v)) a b = slice buf a b.
Proof. intros. by apply slice_write_at_before. Qed.

End words.

(** The four header words of a file after the flags word and then the three
    trailer words have been written into it. *)
Lemma patched_fields (buf : bytes) nf e c o :
  let copy := write_at (write_at (write_at (write_at buf 36 (le_bytes 4 nf))
                                    20 (le_bytes 4 e)) 24 (le_bytes 4 c)) 28 (le_bytes 4 o) in
  0 <= nf < 2 ^ 32 → 0 <= e < 2 ^ 32 → 0 <= c < 2 ^ 32 → 0 <= o < 2 ^ 32 →
  flags_field copy = nf ∧ end_offset_field copy = e
  ∧ current_record_field copy = c ∧ oldest_record_field copy = o.
Proof.
  intros copy Hnf He Hc Ho. subst copy.
  unfold flags_field, end_offset_field, current_record_field, oldest_record_field.
  pose proof (len_nonneg buf).
  rewrite !word_after by (rewrite ?word_len; lia).
  rewrite (word_before _ 28 o 20 24), (word_before _ 24 c 20 24) by (rewrite ?word_len; lia).
  rewrite (word_before _ 28 o 24 28) by (rewrite ?word_len; lia).
  rewrite !word_same by lia.
  by rewrite !int_from_le_bytes by (change (256 ^ Z.of_nat 4) with (2 ^ 32); lia).
Qed.

(** Outside the words written, a file of 40 bytes or more is as it was. *)
Lemma patched_rest (buf : bytes) nf e c o :
  let copy := write_at (write_at (write_at (write_at buf 36 (le_bytes 4 nf))
                                    20 (le_bytes 4 e)) 24 (le_bytes 4 c)) 28 (le_bytes 4 o) in
  40 <= len buf →
  len copy = len buf ∧ slice copy 0 20 = slice buf 0 20
  ∧ slice copy 32 36 = slice buf 32 36
  ∧ slice copy 40 (len copy) = slice buf 40 (len buf).
Proof.
  intros copy Hlen. subst copy.
  split; [rewrite !word_len by lia; lia|].
  split; [by rewrite !word_before by (rewrite ?word_len; lia)|].
  split.
  - rewrite !word_after by (rewrite ?word_len; lia).
    by rewrite word_before by lia.
  - rewrite !word_len by lia.
    replace (Z.max (Z.max (Z.max (Z.max (len buf) (36 + 4)) (20 + 4)) (24 + 4)) (28 + 4))
      with (len buf) by lia.
    by rewrite !word_after by (rewrite ?word_len; lia).
Qed.

Lemma cleared_fields (buf : bytes) nf :
  0 <= nf < 2 ^ 32 → flags_field (write_at buf 36 (le_bytes 4 nf)) = nf.
Proof.
  intros Hnf. unfold flags_field. rewrite word_same by lia.
  by rewrite int_from_le_bytes by (change (256 ^ Z.of_nat 4) with (2 ^ 32); lia).
Qed.


(** ** The disk *)

Lemma lookup_files (d : disk) (e : string) :
  files d !! e = names d !! e ≫= (blobs d !!.).
Proof. unfold files. apply lookup_omap. Qed.

(** The number of a new file is above every number in use. *)
Lemma new_file_fresh (d : disk) (e : string) (i : N) :
  names d !! e = Some i → (i < new_file d)%N.
Proof.
  unfold new_file. generalize e i. clear e i.
  apply (map_fold_weak_ind
           (fun (r : N) (m : gmap string N) => ∀ e i, m !! e = Some i → (i < N.succ r)%N)).
  - intros e i. by rewrite lookup_empty.
  - intros e' j m r Hnone IH e i. destruct (decide (e = e')) as [->|Hne].
    + rewrite lookup_insert_eq. intros [= ->]. lia.
    + rewrite lookup_insert_ne by done. intros Hi%IH. lia.
Qed.

Section disk_facts.

Variable entry : string → string.

(** Writing twice through one path leaves what the second write wrote. *)
Lemma write_file_twice (d : disk) (p : string) (c c' : bytes) :
  write_file entry (write_file entry d p c) p c' = write_file entry d p c'.
Proof.
  unfold write_file. destruct (names d !! entry p) as [i|] eqn:Hp; cbn [names blobs].
  - rewrite Hp. by rewrite insert_insert_eq.
  - rewrite lookup_insert_eq. by rewrite insert_insert_eq.
Qed.

(** A file holds what was written through its path. *)
Lemma files_write_file (d : disk) (p : string) (c : bytes) :
  files (write_file entry d p c) !! entry p = Some c.
Proof.
  rewrite lookup_files. unfold write_file.
  destruct (names d !! entry p) as [i|] eqn:Hp; cbn [names blobs].
  - rewrite Hp. cbn. by rewrite lookup_insert_eq.
  - rewrite lookup_insert_eq. cbn. by rewrite lookup_insert_eq.
Qed.

(** A write reaches no file but the one the path names. *)
Lemma files_write_file_other (d : disk) (p : string) (c : bytes) (e : string) (i : N) :
  names d !! e = Some i → names d !! entry p ≠ Some i →
  files (write_file entry d p c) !! e = files d !! e.
Proof.
  intros He Hp. rewrite !lookup_files. unfold write_file.
  destruct (names d !! entry p) as [j|] eqn:Hj; cbn [names blobs].
  - rewrite He. cbn. rewrite lookup_insert_ne; [done|]. congruence.
  - rewrite lookup_insert_ne by congruence. rewrite He. cbn.
    rewrite lookup_insert_ne; [done|]. pose proof (new_file_fresh d e i He). lia.
Qed.

(** A file that can be read has a number. *)
Lemma files_Some_names (d : disk) (e : string) (c : bytes) :
  files d !! e = Some c → ∃ i, names d !! e = Some i ∧ blobs d !! i = Some c.
Proof.
  rewrite lookup_files. destruct (names d !! e) as [i|]; [|done]. cbn. eauto.
Qed.

(** No write to an output that is apart from the source reaches the source. *)
Lemma write_file_keeps_source (d : disk) (input_file : string)
    (output_file : option string) (temp_path : string) (content c : bytes) :
  files d !! entry input_file = Some content →
  apart entry d input_file output_file temp_path →
  files (write_file entry d (default temp_path output_file) c) !! entry input_file
  = Some content.
Proof.
  intros Hin Hout. destruct (files_Some_names _ _ _ Hin) as (i & Hi & _).
  rewrite (files_write_file_other d _ c (entry input_file) i); [done..|].
  destruct output_file as [o|]; cbn in *.
  - unfold samefile in Hout. rewrite Hi in Hout.
    destruct (names d !! entry o) as [j|]; [|done].
    apply bool_decide_eq_false in Hout. congruence.
  - by rewrite Hout.
Qed.

(** The repair of a file into a path that does not name it: the copy and
    the outcome of patching it. *)
Lemma repair_dirty_evt_into (d : disk) (input_file out temp_path : string)
    (content : bytes) :
  files d !! entry input_file = Some content →
  samefile entry d input_file out = false →
  ∃ r f, patch_copy {| f_buf := content; f_pos := 0 |} = (r, f)
    ∧ repair_dirty_evt entry d input_file (Some out) temp_path
      = match r with
        | Ok () => (Ok out, write_file entry d out (f_buf f))
        | Raise e => if is_OSError e
                     then repair_failed entry (write_file entry d out (f_buf f))
                            input_file out e
                     else (Raise e, write_file entry d out (f_buf f))
        | OutOfFuel => (OutOfFuel, write_file entry d out (f_buf f))
        end.
Proof.
  intros Hin Hne.
  destruct (patch_copy {| f_buf := content; f_pos := 0 |}) as [r f] eqn:Hrun.
  exists r, f. split; [done|].
  unfold repair_dirty_evt, copy2. rewrite Hne, Hin.
  rewrite files_write_file. rewrite Hrun.
  rewrite write_file_twice. by destruct r as [[]| |].
Qed.

(** The same for either kind of output: a path given, or the temporary file
    made when none is. *)
Lemma repair_dirty_evt_run (d : disk) (input_file : string)
    (output_file : option string) (temp_path : string) (content : bytes) :
  let out := default temp_path output_file in
  files d !! entry input_file = Some content →
  apart entry d input_file output_file temp_path →
  ∃ r f, patch_copy {| f_buf := content; f_pos := 0 |} = (r, f)
    ∧ repair_dirty_evt entry d input_file output_file temp_path
      = match r with
        | Ok () => (Ok out, write_file entry d out (f_buf f))
        | Raise e => if is_OSError e
                     then repair_failed entry (write_file entry d out (f_buf f))
                            input_file out e
                     else (Raise e, write_file entry d out (f_buf f))
        | OutOfFuel => (OutOfFuel, write_file entry d out (f_buf f))
        end.
Proof.
  intros out Hin Hout. destruct output_file as [o|]; [by apply repair_dirty_evt_into|].
  cbn in out, Hout. subst out.
  destruct (files_Some_names _ _ _ Hin) as (i & Hi & _).
  destruct (repair_dirty_evt_into (write_file entry d temp_path []) input_file temp_path
              temp_path content) as (r & f & Hrun & Hrep).
  { rewrite (files_write_file_other d _ _ (entry input_file) i); [done..|]. by rewrite Hout. }
  { unfold samefile, write_file. rewrite Hout. cbn [names].
    rewrite lookup_insert_eq. rewrite lookup_insert_ne by congruence. rewrite Hi.
    apply bool_decide_eq_false. pose proof (new_file_fresh d _ i Hi). lia. }
  exists r, f. split; [done|].
  unfold repair_dirty_evt in *. rewrite Hrep.
  by rewrite !write_file_twice.
Qed.

(** Asked to repair a file into a path that names that same file,
    [shutil.copy2] refuses with a subclass of [OSError], and the handler of
    [repair_dirty_evt] unlinks the output path. *)
Lemma repair_same_file_fails (d : disk) (input_file out temp_path : string) :
  samefile entry d input_file out = true →
  ∃ msg, repair_dirty_evt entry d input_file (Some out) temp_path
         = (Raise (FileValidationError msg), unlink entry d out).
Proof.
  intros Hsame. unfold repair_dirty_evt, copy2. rewrite Hsame. cbn [is_OSError].
  unfold repair_failed, exists_. unfold samefile in Hsame.
  destruct (names d !! entry input_file); [|done].
  destruct (names d !! entry out); [|done].
  rewrite bool_decide_eq_true_2 by eauto. eauto.
Qed.

End disk_facts.

(** In [oversized_log] the pattern is found at [4294967260], the end offset
    [(p − 4) + 40] is [2^32], which no 4-byte word holds, and the repair
    raises [OverflowError], which its [except OSError] clause does not
    catch: no copy is returned and the output file stays behind. *)
Lemma repair_overflow_counterexample :
  find oversized_log EOF_SIGNATURE 0 = 4294967260
  ∧ ∃ d', repair_dirty_evt sample_entry
            {| names := {[ "Big.evt"%string := 1%N ]};
               blobs := {[ 1%N := oversized_log ]} |}
            "Big.evt" (Some "Big_repaired.evt"%string) "tmp"
          = (Raise (OverflowError "int too big to convert"), d')
          ∧ is_Some (files d' !! "Big_repaired.evt"%string).
Proof.
  assert (∀ n i, find_in EVT_EOF_SIGNATURE (replicate n Byte.x00 ++ EVT_EOF_SIGNATURE) i
                 = i + Z.of_nat n) as Hzeros.
  { assert (∀ l i, find_in EVT_EOF_SIGNATURE l i
                     = if starts_with EVT_EOF_SIGNATURE l then i
                       else match l with [] => -1 | _ :: l' => find_in EVT_EOF_SIGNATURE l' (i + 1) end)
      as Hunfold by (by intros []).
    induction n as [|n IH]; intros i; rewrite Hunfold.
    - replace (starts_with EVT_EOF_SIGNATURE (replicate 0 Byte.x00 ++ EVT_EOF_SIGNATURE))
        with true by (vm_compute; reflexivity). lia.
    - cbn [replicate app]. cbn [starts_with EVT_EOF_SIGNATURE].
      rewrite bool_decide_eq_false_2 by done. cbn [andb]. rewrite IH. lia. }
  assert (∀ n, find (replicate n Byte.x00 ++ EVT_EOF_SIGNATURE) EOF_SIGNATURE 0 = Z.of_nat n)
    as Hfind.
  { intros n. unfold find, EOF_SIGNATURE.
    destruct (decide (0 < 0)); [lia|].
    destruct (decide (0 > len (replicate n Byte.x00 ++ EVT_EOF_SIGNATURE)));
      [pose proof (len_nonneg (replicate n Byte.x00 ++ EVT_EOF_SIGNATURE)); lia|].
    change (Z.to_nat 0) with 0%nat. rewrite drop_0. by rewrite Hzeros. }
  assert (find oversized_log EOF_SIGNATURE 0 = 4294967260) as Hp.
  { unfold oversized_log. rewrite Hfind. lia. }
  split; [exact Hp|].
  destruct (repair_dirty_evt_into sample_entry
              {| names := {[ "Big.evt"%string := 1%N ]};
                 blobs := {[ 1%N := oversized_log ]} |}
              "Big.evt" "Big_repaired.evt" "tmp" oversized_log) as (r & f & Hrun & ->).
  { rewrite lookup_files. cbn [names blobs sample_entry].
    rewrite lookup_singleton_eq. cbn. apply lookup_singleton_eq. }
  { unfold samefile. cbn [names sample_entry].
    rewrite lookup_singleton_eq. by rewrite lookup_singleton_ne. }
  destruct (patch_copy_run oversized_log) as (r' & f' & Hrun' & Hspec).
  rewrite Hrun in Hrun'. injection Hrun' as <- <-.
  rewrite Hp in Hspec.
  destruct (decide (4294967260 >= 0)); [|lia].
  destruct (decide (2 ^ 32 <= 4294967260 - 4 + 40)); [|lia].
  destruct Hspec as [-> _]. cbn [is_OSError]. eexists. split; [done|].
  exact (mk_is_Some _ _ (files_write_file sample_entry _ "Big_repaired.evt" _)).
Qed.



(** C5. Asked to repair the file [System.evt], a dirty log of 164 bytes,
    into [System.evt] itself, [repair_dirty_evt] returns no copy: it raises
    [FileValidationError], and afterwards no file goes by that name any
    more: the source is deleted.  The same happens when the output is the
    source under another spelling, [./System.evt].  The documentation of the
    function has it preserve the original file. *)
Theorem repair_onto_source_deletes_it :
  files sample_disk !! "System.evt"%string = Some sample_log
  ∧ (∃ msg d',
       repair_dirty_evt sample_entry sample_disk "System.evt" (Some "System.evt"%string) "tmp"
       = (Raise (FileValidationError msg), d')
       ∧ files d' !! "System.evt"%string = None ∧ names d' = ∅)
  ∧ (∃ msg d',
       repair_dirty_evt sample_entry sample_disk "System.evt" (Some "./System.evt"%string) "tmp"
       = (Raise (FileValidationError msg), d')
       ∧ files d' !! "System.evt"%string = None ∧ names d' = ∅).
Proof.
  split; [vm_compute; reflexivity|]. split.
  - destruct (repair_same_file_fails sample_entry sample_disk "System.evt" "System.evt" "tmp")
      as [msg ->]; [vm_compute; reflexivity|].
    eexists _, _. split; [done|]. split; vm_compute; reflexivity.
  - destruct (repair_same_file_fails sample_entry sample_disk "System.evt" "./System.evt" "tmp")
      as [msg ->]; [vm_compute; reflexivity|].
    eexists _, _. split; [done|]. split; vm_compute; reflexivity.
Qed.

(** A link to the source is refused in the same way; the handler removes
    the link, and the source stays under its own name. *)
Example repair_onto_link_fails :
  ∃ msg d',
    repair_dirty_evt sample_entry linked_disk "System.evt" (Some "Link.evt"%string) "tmp"
    = (Raise (FileValidationError msg), d')
    ∧ files d' !! "Link.evt"%string = None
    ∧ files d' !! "System.evt"%string = Some sample_log.
Proof.
  destruct (repair_same_file_fails sample_entry linked_disk "System.evt" "Link.evt" "tmp")
    as [msg ->]; [vm_compute; reflexivity|].
  eexists _, _. split; [done|]. split; vm_compute; reflexivity.
Qed.

(** The sample log of one record decodes to that record, without error. *)
Example sample_log_parses :
  ∃ r, parse_evt_data "System.evt" sample_log = Ok r
       ∧ total_records r = 1 ∧ valid_records r = 1 ∧ errors r = []
       ∧ (source <$> records r) = [unicode_of_string "abc"]
       ∧ (computer_name <$> records r) = [unicode_of_string "pc"]
       ∧ (event_type <$> records r) = ["information"%string].
Proof. eexists. split; [vm_compute; reflexivity|]. by vm_compute. Qed.

(** With the record's magic overwritten nothing is decoded and nothing is
    reported. *)
Example bad_magic_log_parses :
  ∃ r, parse_evt_data "System.evt" bad_magic_log = Ok r
       ∧ records r = [] ∧ total_records r = 0 ∧ errors r = [] ∧ success r = true.
Proof. eexists. split; [vm_compute; reflexivity|]. by vm_compute. Qed.

(** A record of declared size 55 is reported and the scan goes on four bytes
    further. *)
Example short_size_log_parses :
  ∃ r, parse_evt_data "System.evt" short_size_log = Ok r
       ∧ records r = [] ∧ total_records r = 1
       ∧ errors r = ["Invalid record size at offset 48: 55"%string]
       ∧ success r = false.
Proof. eexists. split; [vm_compute; reflexivity|]. by vm_compute. Qed.

(** A record followed by a record cut short: the first is kept, the second
    is counted and reported, and the walk stops there. *)
Example truncated_after_record_parses :
  ∃ r, parse_evt_data "System.evt"
         (sample_header 48 0 ++ sample_record EVT_SIGNATURE 76
          ++ take 60 (sample_record EVT_SIGNATURE 76)) = Ok r
       ∧ (record_number <$> records r) = [7] ∧ total_records r = 2
       ∧ errors r = ["Record extends past end of file at offset 124"%string]
       ∧ success r = true.
Proof. eexists. split; [vm_compute; reflexivity|]. by vm_compute. Qed.


(** * Further properties *)

(** ** The record decoder *)

(** The outcomes of [_parse_event_record] at a frame that carries the
    record magic: a record decoded from the frame's span, and no error, or
    no record and a non-empty error; the next offset lies ahead either
    way. *)
Lemma _parse_event_record_at_magic (data : bytes) offset :
  let size := int_from_bytes_little (slice data offset (offset + 4)) in
  0 <= offset → offset + 8 <= len data →
  slice data (offset + 4) (offset + 8) = EVT_SIGNATURE →
  (∃ record, _parse_event_record data offset = Ok (Some record, offset + size, None)
             ∧ 56 <= size <= 65536 ∧ offset + size <= len data
             ∧ decode_record (slice data offset (offset + size)) size = Ok record)
  ∨ (∃ next_offset msg, _parse_event_record data offset = Ok (None, next_offset, Some msg)
                        ∧ msg ≠ EmptyString ∧ offset < next_offset).
Proof.
  intros size Ho Hlen Hsig. unfold _parse_event_record.
  destruct (decide (offset + 8 > len data)); [lia|].
  rewrite unpack_I_slice by lia. cbn [mbind result_bind]. fold size. rewrite Hsig.
  rewrite decide_False by (intros E; by apply EOF_prefix_not_signature).
  rewrite decide_False by (by intros []).
  unfold EVENTLOGRECORD_HEADER_SIZE.
  destruct (decide (size < 56 ∨ size > 65536)); [right; do 2 eexists; split; [done|]; split; [done|lia]|].
  destruct (decide (offset + size > len data));
    [right; do 2 eexists; split; [done|]; split; [done|lia]|].
  destruct (decode_record_returns (slice data offset (offset + size)) size) as (r & Hr & _).
  { unfold len at 1. rewrite length_slice by lia. lia. }
  left. exists r. rewrite Hr. split; [done|]. split; [lia|]. split; [lia|done].
Qed.

(** What an iteration of the eager loop that does not raise leaves behind:
    the count, errors and records as they were (EOF marker, or
    resynchronisation), or one more frame counted together with either one
    more record, decoded from a frame of the buffer, or one more error. *)
Lemma walk_body_effect (data : bytes) st st' :
  0 <= w_offset st → w_offset st < len data - 8 →
  walk_body data st = Break st' ∨ walk_body data st = Continue st' →
  (w_record_count st' = w_record_count st ∧ w_errors st' = w_errors st
   ∧ w_records st' = w_records st)
  ∨ (w_record_count st' = w_record_count st + 1
     ∧ ((∃ record size,
           w_records st' = w_records st ++ [record] ∧ w_errors st' = w_errors st
           ∧ w_offset st' = w_offset st + size
           ∧ slice data (w_offset st + 4) (w_offset st + 8) = EVT_SIGNATURE
           ∧ size = int_from_bytes_little (slice data (w_offset st) (w_offset st + 4))
           ∧ 56 <= size <= 65536 ∧ w_offset st + size <= len data
           ∧ decode_record (slice data (w_offset st) (w_offset st + size)) size = Ok record)
        ∨ (∃ msg, w_errors st' = w_errors st ++ [msg] ∧ w_records st' = w_records st))).
Proof.
  intros Ho Hlt. unfold walk_body.
  case_decide; [intros [[= <-]|[=]]; by left|].
  case_decide as Hsig.
  { case_decide; [intros [[= <-]|[=]]; by left|]. intros [[=]|[= <-]]. by left. }
  destruct (_parse_event_record_at_magic data (w_offset st)) as
    [(record & -> & Hsize & Hin & Hdec)|(next & msg & -> & Hmsg & Hnext)]; [lia..|done| |].
  - intros Hst. right.
    rewrite decide_False in Hst by lia. destruct Hst as [[=]|[= <-]]. cbn.
    split; [done|]. left. eexists record, _. repeat split; try done; lia.
  - intros Hst. right.
    assert (truthy (Some msg) = true) as Htr.
    { cbn. by rewrite bool_decide_eq_false_2. }
    rewrite Htr in Hst.
    assert (w_record_count st' = w_record_count st + 1
            ∧ w_records st' = w_records st ++ [] ∧ w_errors st' = w_errors st ++ [msg])
      as (-> & -> & ->) by (case_decide; destruct Hst as [[= <-]|[= <-]]; done).
    split; [done|]. right. exists msg. by rewrite app_nil_r.
Qed.

(** A property that every iteration keeps holds when the eager walk
    returns. *)
Lemma walk_invariant (P : walker → Prop) (data : bytes) :
  (∀ st st', P st → 0 <= w_offset st → w_offset st < len data - 8 →
             walk_body data st = Break st' ∨ walk_body data st = Continue st' → P st') →
  ∀ fuel st st', 0 <= w_offset st → P st → walk fuel data st = Ok st' → P st'.
Proof.
  intros Hbody. induction fuel as [|fuel IH]; intros st st' Ho HP; cbn [walk];
    case_decide as Hlt; try done; try (by intros [= <-]).
  destruct (walk_body_progress data st Ho Hlt) as [[st1 Hb]|(st1 & Hb & Hadv)]; rewrite Hb.
  - intros [= <-]. eapply Hbody; eauto.
  - apply IH; [lia|]. eapply Hbody; eauto.
Qed.


(** Every record of the eager walk was decoded from a frame of the
    buffer. *)
Lemma walk_records_decoded fuel (data : bytes) st st' :
  0 <= w_offset st → Forall (decoded_from data) (w_records st) →
  walk fuel data st = Ok st' → Forall (decoded_from data) (w_records st').
Proof.
  intros Ho HP Hw.
  apply (walk_invariant (fun s => Forall (decoded_from data) (w_records s)) data)
    in Hw; [done| |done|done].
  clear. intros st st' HP Ho Hlt Hb.
  destruct (walk_body_effect data st st' Ho Hlt Hb)
    as [(_ & _ & ->)|(_ & [(rec & size & -> & _ & _ & Hsig & Hsz & Hrange & Hin & Hdec)
                          |(msg & _ & ->)])]; try done.
  apply Forall_app. split; [done|]. apply Forall_singleton.
  exists (w_offset st), size. repeat split; try done; lia.
Qed.

Lemma parse_records_decoded (fs : gmap string bytes) input_file (data : bytes) r :
  fs !! input_file = Some data → parse_evt_file fs input_file = Ok r →
  Forall (decoded_from data) (records r).
Proof.
  intros Hfs. unfold parse_evt_file. rewrite Hfs.
  intros (st & Hw & Hh & Hlen & -> & _)%parse_evt_data_outcome.
  eapply walk_records_decoded in Hw; [done| |done].
  cbn. by eapply _parse_header_start.
Qed.

(** The description strings read are at most the number asked for. *)
Lemma read_strings_length n (raw : bytes) record_size str_pos acc ss :
  read_strings n raw record_size str_pos acc = Ok ss →
  (length ss <= length acc + n)%nat.
Proof.
  revert str_pos acc. induction n as [|n IH]; intros str_pos acc; cbn [read_strings].
  - intros [= <-]. lia.
  - case_decide; [intros [= <-]; lia|].
    destruct (_read_null_terminated_utf16 raw str_pos (record_size - str_pos))
      as [[s p]| |]; [|done..]. cbn [mbind result_bind].
    intros Hr%IH. rewrite length_app in Hr. simpl in Hr. lia.
Qed.

(** The fields of a decoded record, read off the fixed block of its
    span. *)
Lemma decode_record_fields (raw : bytes) size r :
  56 <= len raw → decode_record raw size = Ok r →
  let field a b := int_from_bytes_little (slice raw a b) in
  raw_record r = raw
  ∧ record_number r = field 8 12
  ∧ time_generated r = _unix_to_datetime (field 12 16)
  ∧ time_written r = _unix_to_datetime (field 16 20)
  ∧ event_id r = Z.land (field 20 24) 65535
  ∧ event_type_raw r = field 24 26
  ∧ event_category r = field 28 30
  ∧ event_type r = default ("unknown_" +:+ str_int (field 24 26)) (EVENT_TYPE_MAP !! field 24 26)
  ∧ data r = (if decide (field 48 52 > 0 ∧ field 52 56 > 0 ∧ field 52 56 + field 48 52 <= size)
              then Some (slice raw (field 52 56) (field 52 56 + field 48 52)) else None)
  ∧ len (strings r) <= field 26 28
  ∧ (user_sid r ≠ None →
     field 40 44 > 0 ∧ field 44 48 > 0 ∧ field 44 48 + field 40 44 <= size).
Proof.
  intros Hlen. unfold decode_record. unpack_fixed.
  destruct (_read_null_terminated_utf16 raw EVENTLOGRECORD_HEADER_SIZE DEFAULT_MAX_LEN)
    as [[source_name p1]| |]; [|done..]. cbn [mbind result_bind].
  destruct (_read_null_terminated_utf16 raw p1 DEFAULT_MAX_LEN)
    as [[computer p2]| |]; [|done..]. cbn [mbind result_bind].
  match goal with |- context [if ?c then _parse_sid ?d else Ok None] =>
    destruct (if c then _parse_sid d else Ok None) as [sid| |] eqn:Hsid; [|done..] end.
  cbn [mbind result_bind].
  match goal with |- context [if ?c then read_strings ?n ?r ?s ?p ?a else Ok []] =>
    destruct (if c then read_strings n r s p a else Ok []) as [ss| |] eqn:Hss; [|done..] end.
  cbn [mbind result_bind]. intros [= <-]. cbn.
  repeat (split; [done|]). split.
  - pose proof (int_from_bytes_little_range (slice raw 26 28)).
    match type of Hss with (if ?c then _ else _) = _ => destruct c as [Hc|Hc] end;
      [|injection Hss as <-; unfold len; simpl; lia].
    apply read_strings_length in Hss. unfold len. simpl in Hss. lia.
  - intros Hsome.
    match type of Hsid with (if ?c then _ else _) = _ => destruct c as [Hc|Hc] end;
      [exact Hc|]. by injection Hsid as <-.
Qed.


(** X1. In every outcome of the eager parse each frame counted gave either
    a record or an error: [total_records = valid_records + parse_errors],
    and [parse_errors] is the length of the error list. *)
Theorem parse_outcome_accounting (fs : gmap string bytes) (input_file : string) r :
  parse_evt_file fs input_file = Ok r →
  total_records r = valid_records r + parse_errors r
  ∧ parse_errors r = len (errors r).
Proof.
  unfold parse_evt_file. destruct (fs !! input_file) as [data|]; [|done].
  intros (st & Hw & Hh & Hlen & _ & -> & -> & -> & ->)%parse_evt_data_outcome.
  split; [|done].
  apply (walk_invariant
           (fun s => w_record_count s = len (w_records s) + len (w_errors s)) data) in Hw;
    [done| |by eapply _parse_header_start|done].
  clear. intros st st' HP Ho Hlt Hb.
  destruct (walk_body_effect data st st' Ho Hlt Hb)
    as [(-> & -> & ->)|(-> & [(rec & size & -> & -> & _)|(msg & -> & ->)])];
    rewrite ?len_app; unfold len in *; simpl; lia.
Qed.

Lemma parse_outcome_accounting_witness :
  ∃ r, parse_evt_file {[ "System.evt"%string := short_size_log ]} "System.evt" = Ok r
       ∧ total_records r = valid_records r + parse_errors r
       ∧ parse_errors r = len (errors r).
Proof.
  eexists. split; [vm_compute; reflexivity|].
  apply (parse_outcome_accounting {[ "System.evt"%string := short_size_log ]} "System.evt").
  vm_compute. reflexivity.
Defined.

(** X2. Asked about an offset whose 8-byte prefix lies in the buffer,
    [_parse_event_record] returns a next offset strictly ahead, whatever the
    bytes are; a record comes without an error, spans between 56 and 65536
    bytes and ends inside the buffer. *)
Theorem record_decoder_advances (data : bytes) offset :
  0 <= offset → offset + 8 <= len data →
  ∃ record next_offset error,
    _parse_event_record data offset = Ok (record, next_offset, error)
    ∧ offset < next_offset
    ∧ (is_Some record →
       error = None ∧ next_offset <= len data ∧ 56 <= next_offset - offset <= 65536).
Proof.
  intros Ho Hlen.
  destruct (decide (slice data (offset + 4) (offset + 8) = EVT_SIGNATURE)) as [Hsig|Hsig].
  - destruct (_parse_event_record_at_magic data offset Ho Hlen Hsig)
      as [(rec & -> & Hsize & Hin & _)|(next & msg & -> & _ & Hnext)].
    + do 3 eexists. split; [done|]. split; [lia|]. intros _. split; [done|]. lia.
    + do 3 eexists. split; [done|]. split; [done|]. by intros [? [=]].
  - unfold _parse_event_record. destruct (decide (offset + 8 > len data)); [lia|].
    rewrite unpack_I_slice by lia. cbn [mbind result_bind].
    case_decide.
    + do 3 eexists. split; [done|]. split; [lia|]. by intros [? [=]].
    + rewrite decide_True by done.
      do 3 eexists. split; [done|]. split; [lia|]. by intros [? [=]].
Qed.

Lemma record_decoder_advances_witness :
  ∃ record next_offset error,
    _parse_event_record sample_log 48 = Ok (record, next_offset, error)
    ∧ 48 < next_offset.
Proof.
  destruct (record_decoder_advances sample_log 48)
    as (record & next_offset & error & H & Hlt & _);
    [vm_compute; discriminate | vm_compute; discriminate |].
  exists record, next_offset, error. split; [exact H | exact Hlt].
Defined.

(** X3. Every record of an eager outcome keeps in [raw_record] a span of
    the file that lies inside it, is between 56 and 65536 bytes long,
    starts with its own length as a little-endian word followed by the
    record magic, and whose word at 8 is the record number. *)
Theorem emitted_records_are_frames
    (fs : gmap string bytes) (input_file : string) (data : bytes) r :
  fs !! input_file = Some data → parse_evt_file fs input_file = Ok r →
  Forall (fun record =>
            let raw := raw_record record in
            56 <= len raw <= 65536
            ∧ (∃ offset, 0 <= offset ∧ offset + len raw <= len data
                         ∧ raw = slice data offset (offset + len raw))
            ∧ int_from_bytes_little (slice raw 0 4) = len raw
            ∧ slice raw 4 8 = EVT_SIGNATURE
            ∧ record_number record = int_from_bytes_little (slice raw 8 12))
         (records r).
Proof.
  intros Hfs Hp. eapply Forall_impl; [by eapply parse_records_decoded|].
  intros record (offset & size & Ho & Hsig & Hsz & Hrange & Hin & Hdec). cbn zeta.
  assert (len (slice data offset (offset + size)) = size) as Hlen
    by (unfold len at 1; rewrite length_slice by lia; lia).
  destruct (decode_record_fields (slice data offset (offset + size)) size record ltac:(lia) Hdec) as (Hraw & Hnum & _).
  rewrite Hraw, Hlen. split; [done|]. split; [by exists offset|].
  rewrite !slice_slice by lia. rewrite Z.add_0_r.
  split; [done|]. split; [done|]. rewrite Hnum. by rewrite slice_slice by lia.
Qed.

Lemma emitted_records_are_frames_witness :
  ∃ r, parse_evt_file {[ "System.evt"%string := sample_log ]} "System.evt" = Ok r
       ∧ Forall (fun record => 56 <= len (raw_record record) <= 65536
                               ∧ slice (raw_record record) 4 8 = EVT_SIGNATURE)
                (records r).
Proof.
  eexists. split; [vm_compute; reflexivity|].
  eapply Forall_impl.
  - apply (emitted_records_are_frames {[ "System.evt"%string := sample_log ]} "System.evt"
             sample_log); vm_compute; reflexivity.
  - intros record (Hlen & _ & _ & Hsig & _). split; [exact Hlen | exact Hsig].
Defined.

(** X4. In every record of an eager outcome the event id is below 65536; a
    payload, when present, is non-empty, has the declared length and is a
    span inside the record's own bytes; the description strings are at most
    as many as declared; a timestamp is absent exactly when its word is
    zero; and a SID is present only if its declared span lies inside the
    record. *)
Theorem extracted_fields_in_bounds
    (fs : gmap string bytes) (input_file : string) (content : bytes) r :
  fs !! input_file = Some content → parse_evt_file fs input_file = Ok r →
  Forall (fun record =>
            let raw := raw_record record in
            let field a b := int_from_bytes_little (slice raw a b) in
            0 <= event_id record < 65536
            ∧ (∀ d, data record = Some d →
                    0 < len d ∧ len d = field 48 52 ∧ 0 < field 52 56
                    ∧ field 52 56 + len d <= len raw
                    ∧ d = slice raw (field 52 56) (field 52 56 + len d))
            ∧ len (strings record) <= field 26 28
            ∧ (time_generated record = None ↔ field 12 16 = 0)
            ∧ (time_written record = None ↔ field 16 20 = 0)
            ∧ (user_sid record ≠ None →
               0 < field 40 44 ∧ 0 < field 44 48 ∧ field 44 48 + field 40 44 <= len raw))
         (records r).
Proof.
  intros Hfs Hp. eapply Forall_impl; [by eapply parse_records_decoded|].
  intros record (offset & size & Ho & Hsig & Hsz & Hrange & Hin & Hdec). cbn zeta.
  assert (len (slice content offset (offset + size)) = size) as Hlen
    by (unfold len at 1; rewrite length_slice by lia; lia).
  destruct (decode_record_fields (slice content offset (offset + size)) size record ltac:(lia) Hdec)
    as (Hraw & _ & Htg & Htw & Hid & _ & _ & _ & Hdata & Hstr & Hsid).
  cbn zeta in *. rewrite Hraw, Hlen.
  set (raw := slice content offset (offset + size)) in *.
  split.
  { rewrite Hid. change 65535 with (Z.ones 16). rewrite Z.land_ones by lia.
    change 65536 with (2 ^ 16). apply Z.mod_pos_bound. lia. }
  split.
  { intros d Hd. rewrite Hdata in Hd. case_decide as Hc; [|done]. injection Hd as <-.
    destruct Hc as (Hl & Hoff & Hfit).
    assert (len (slice raw (int_from_bytes_little (slice raw 52 56))
                   (int_from_bytes_little (slice raw 52 56)
                    + int_from_bytes_little (slice raw 48 52)))
            = int_from_bytes_little (slice raw 48 52)) as Hld
      by (unfold len at 1; rewrite length_slice by lia; lia).
    rewrite Hld. repeat split; try done; lia. }
  split; [done|].
  unfold _unix_to_datetime in Htg, Htw.
  split; [rewrite Htg; clear; case_decide; split; intros; congruence|].
  split; [rewrite Htw; clear; case_decide; split; intros; congruence|].
  intros Hs. apply Hsid in Hs. lia.
Qed.

Lemma extracted_fields_in_bounds_witness :
  ∃ r, parse_evt_file {[ "System.evt"%string := sample_log ]} "System.evt" = Ok r
       ∧ Forall (fun record => 0 <= event_id record < 65536) (records r).
Proof.
  eexists. split; [vm_compute; reflexivity|].
  eapply Forall_impl.
  - apply (extracted_fields_in_bounds {[ "System.evt"%string := sample_log ]} "System.evt"
             sample_log); vm_compute; reflexivity.
  - intros record (Hid & _). exact Hid.
Defined.


(** ** Text and SIDs *)

Lemma getitem_app_at (pre : bytes) b (tl : bytes) :
  getitem (pre ++ b :: tl) (len pre) = Ok b.
Proof.
  unfold getitem, len. destruct (decide (Z.of_nat (length pre) < 0)); [lia|].
  destruct (decide (Z.of_nat (length pre) < 0)); [lia|].
  rewrite Nat2Z.id. by rewrite list_lookup_middle.
Qed.

Lemma getitem_app_after (pre : bytes) b0 b1 (tl : bytes) :
  getitem (pre ++ b0 :: b1 :: tl) (len pre + 1) = Ok b1.
Proof.
  replace (pre ++ b0 :: b1 :: tl) with ((pre ++ [b0]) ++ b1 :: tl)
    by (by rewrite <- app_assoc).
  replace (len pre + 1) with (len (pre ++ [b0])) by (rewrite len_app; done).
  apply getitem_app_at.
Qed.

(** The UTF-16LE bytes of a list of characters, without terminator. *)
Lemma utf16z_unfold s :
  utf16z s = flat_map (fun c => [byte_of_Z (Z.of_N (N_of_ascii c)); Byte.x00])
               (list_ascii_of_string s) ++ [Byte.x00; Byte.x00].
Proof. done. Qed.

Lemma byte_val_of_ascii c : byte_val (byte_of_Z (Z.of_N (N_of_ascii c))) = Z.of_N (N_of_ascii c).
Proof.
  rewrite byte_val_of_Z. pose proof (N_ascii_bounded c). apply Z.mod_small. lia.
Qed.

Lemma N_of_ascii_zero c : N_of_ascii c = 0%N → c = "000"%char.
Proof. intros H. rewrite <- (ascii_N_embedding c), H. done. Qed.

Section ascii_text.
Let unit_of (c : ascii) : bytes := [byte_of_Z (Z.of_N (N_of_ascii c)); Byte.x00].

Lemma len_flat_map_units (l : list ascii) : len (flat_map unit_of l) = 2 * len l.
Proof.
  induction l as [|c l IH]; [done|]. cbn [flat_map]. rewrite len_app, IH.
  unfold len. simpl. lia.
Qed.

(** The scan passes over the characters and ends on the terminator, or on
    the bound when that falls on the terminator. *)
Lemma scan_terminator_text (l : list ascii) (rest : bytes) :
  Forall (fun c => c ≠ "000"%char) l →
  ∀ (pre : bytes) fuel limit,
    (length l < fuel)%nat → len pre + 2 * len l <= limit →
    scan_terminator fuel (pre ++ flat_map unit_of l ++ [Byte.x00; Byte.x00] ++ rest)
      limit (len pre)
    = Ok (len pre + 2 * len l).
Proof.
  induction 1 as [|c l Hc Hl IH]; intros pre fuel limit Hfuel Hlim.
  - destruct fuel as [|fuel]; [simpl in Hfuel; lia|].
    cbn [scan_terminator flat_map app]. unfold len at 3. simpl length.
    rewrite Z.mul_0_r, Z.add_0_r.
    case_decide; [|done].
    rewrite getitem_app_at. cbn [mbind result_bind].
    rewrite decide_True by done. rewrite getitem_app_after. cbn [mbind result_bind].
    by rewrite decide_True by done.
  - destruct fuel as [|fuel]; [simpl in Hfuel; lia|].
    replace (len (c :: l)) with (len l + 1) in * by (unfold len; simpl length; lia).
    set (tl := flat_map unit_of l ++ [Byte.x00; Byte.x00] ++ rest).
    set (b := byte_of_Z (Z.of_N (N_of_ascii c))).
    change (pre ++ flat_map unit_of (c :: l) ++ [Byte.x00; Byte.x00] ++ rest)
      with (pre ++ b :: Byte.x00 :: tl).
    cbn [scan_terminator]. rewrite decide_True by (pose proof (len_nonneg l); lia).
    rewrite getitem_app_at. cbn [mbind result_bind].
    rewrite decide_False.
    2: { unfold b. rewrite byte_val_of_ascii. intros Hz. apply Hc, N_of_ascii_zero. lia. }
    replace (pre ++ b :: Byte.x00 :: tl) with ((pre ++ [b; Byte.x00]) ++ tl)
      by (by rewrite <- app_assoc).
    replace (len pre + 2) with (len (pre ++ [b; Byte.x00])) by (by rewrite len_app).
    unfold tl. rewrite IH; [|simpl in Hfuel; lia|rewrite len_app; unfold len at 2; simpl; lia].
    f_equal. rewrite len_app. unfold len at 2. simpl. lia.
Qed.

Lemma decode_text (l : list ascii) :
  decode_utf16le_replace (flat_map unit_of l) = map (fun c => Z.of_N (N_of_ascii c)) l.
Proof.
  induction l as [|c l IH]; [done|].
  cbn [flat_map map]. unfold unit_of at 1. cbn [app decode_utf16le_replace].
  assert (is_surrogate (code_unit (byte_of_Z (Z.of_N (N_of_ascii c))) Byte.x00) = false) as ->.
  { unfold is_surrogate, code_unit. rewrite byte_val_of_ascii.
    pose proof (N_ascii_bounded c). apply bool_decide_eq_false_2.
    change (byte_val Byte.x00) with 0. lia. }
  cbn [negb]. rewrite IH. f_equal. unfold code_unit. rewrite byte_val_of_ascii.
  change (byte_val Byte.x00) with 0. lia.
Qed.

End ascii_text.

Lemma length_list_ascii_of_string s : length (list_ascii_of_string s) = String.length s.
Proof. induction s; simpl; auto. Qed.

(** X5. A text of at most 512 characters without NUL, written as UTF-16LE
    with a zero code unit after it and placed anywhere in a buffer, is read
    back whole by the default scan, and the next offset is the position just
    past its terminator. *)
Theorem read_null_terminated_round_trip (pre rest : bytes) (s : string) :
  Forall (fun c => c ≠ "000"%char) (list_ascii_of_string s) →
  (String.length s <= 512)%nat →
  _read_null_terminated_utf16 (pre ++ utf16z s ++ rest) (len pre) DEFAULT_MAX_LEN
  = Ok (unicode_of_string s, len pre + 2 * Z.of_nat (String.length s) + 2).
Proof.
  intros Hnul Hlen. rewrite utf16z_unfold. rewrite <- (app_assoc _ [Byte.x00; Byte.x00] rest).
  set (l := list_ascii_of_string s) in *.
  set (body := flat_map _ l).
  assert (len body = 2 * len l) as Hbody by apply len_flat_map_units.
  assert (len l = Z.of_nat (String.length s)) as Hl
    by (unfold len, l; by rewrite length_list_ascii_of_string).
  set (data := pre ++ body ++ [Byte.x00; Byte.x00] ++ rest).
  assert (len data = len pre + 2 * len l + 2 + len rest) as Hdata.
  { unfold data. rewrite !len_app, Hbody. unfold len at 3. simpl. lia. }
  pose proof (len_nonneg rest). pose proof (len_nonneg pre).
  pose proof (scan_terminator_text l rest Hnul pre (S (length data))
                (Z.min (len pre + DEFAULT_MAX_LEN) (len data - 1))) as Hscan.
  fold body in Hscan. fold data in Hscan.
  unfold _read_null_terminated_utf16. rewrite Hscan.
  - cbn [mbind result_bind]. rewrite decode_utf16le_fallback. cbn [mbind result_bind].
    f_equal. f_equal; [|lia].
    unfold data. rewrite slice_app_r by lia. rewrite Z.sub_diag.
    replace (len pre + 2 * len l - len pre) with (len body) by lia.
    rewrite slice_app_l by lia. rewrite slice_full. apply decode_text.
  - unfold len in *. lia.
  - unfold DEFAULT_MAX_LEN. unfold len in *. lia.
Qed.

Lemma read_null_terminated_round_trip_witness :
  _read_null_terminated_utf16 (u32 7 ++ utf16z "Security" ++ utf16z "HOST") 4 DEFAULT_MAX_LEN
  = Ok (unicode_of_string "Security", 22).
Proof.
  apply (read_null_terminated_round_trip (u32 7) (utf16z "HOST") "Security").
  - repeat constructor; discriminate.
  - vm_compute. lia.
Defined.


Lemma len_u32 v : len (u32 v) = 4.
Proof. unfold u32. by rewrite len_le_bytes. Qed.

(** The sub-authorities of a SID are read back one by one. *)
Lemma sid_sub_authorities (subs : list Z) (extra : bytes) :
  Forall (fun v => 0 <= v < 2 ^ 32) subs →
  ∀ (pre : bytes) k,
    len pre = 8 + k * 4 →
    mapM (fun i => sub_auth ← unpack_I (slice (pre ++ flat_map u32 subs ++ extra)
                                          (8 + i * 4) (8 + i * 4 + 4));
                   Ok (str_int sub_auth))
         (seqZ k (len subs))
    = Ok (map str_int subs).
Proof.
  induction 1 as [|v subs Hv Hsubs IH]; intros pre k Hpre; [done|].
  replace (len (v :: subs)) with (Z.succ (len subs)) by (unfold len; simpl length; lia).
  rewrite seqZ_cons by (pose proof (len_nonneg subs); lia). rewrite Z.pred_succ.
  cbn [mapM flat_map map]. cbn zeta.
  rewrite <- (app_assoc (u32 v)).
  rewrite slice_app_r by lia. rewrite Hpre, Z.sub_diag.
  replace (8 + k * 4 + 4 - (8 + k * 4)) with (len (u32 v)) by (rewrite len_u32; lia).
  rewrite slice_app_l by (rewrite ?len_u32; lia). rewrite slice_full.
  rewrite unpack_I_Ok by apply length_le_bytes. cbn [mbind result_bind]. unfold u32 at 1.
  rewrite int_from_le_bytes by (change (256 ^ Z.of_nat 4) with (2 ^ 32); lia).
  rewrite (app_assoc pre). rewrite (IH (pre ++ u32 v) (Z.succ k)).
  - done.
  - rewrite len_app, len_u32. lia.
Qed.

(** X6. The bytes of any SID, made of a revision below 256, an authority
    below [2^48] as six big-endian bytes and fewer than 256 sub-authorities
    below [2^32], followed by anything, decode to "S-", the revision, the
    authority and the sub-authorities in decimal, joined by dashes; with no
    sub-authority the text ends in a dash. *)
Theorem sid_round_trip (revision authority : Z) (subs : list Z) (extra : bytes) :
  0 <= revision < 256 → 0 <= authority < 2 ^ 48 →
  Forall (fun v => 0 <= v < 2 ^ 32) subs → len subs < 256 →
  _parse_sid (sid_bytes revision authority subs ++ extra)
  = Ok (Some ("S-" +:+ str_int revision +:+ "-" +:+ str_int authority +:+ "-"
              +:+ String.concat "-" (map str_int subs))).
Proof.
  intros Hrev Hauth Hsubs Hcount.
  pose proof (len_nonneg subs). pose proof (len_nonneg extra).
  set (head := [byte_of_Z revision; byte_of_Z (len subs)] ++ rev (le_bytes 6 authority)).
  assert (len head = 8) as Hhead.
  { unfold head. rewrite len_app. unfold len. rewrite length_rev, length_le_bytes. done. }
  assert (sid_bytes revision authority subs ++ extra = head ++ flat_map u32 subs ++ extra)
    as Hdata by (unfold sid_bytes, head; by rewrite <- !app_assoc).
  assert (len (flat_map u32 subs) = 4 * len subs) as Hflat.
  { clear. induction subs as [|v subs IH]; [done|]. cbn [flat_map].
    rewrite len_app, IH, len_u32. unfold len. simpl length. lia. }
  assert (len (sid_bytes revision authority subs ++ extra) = 8 + 4 * len subs + len extra)
    as Hlen by (rewrite Hdata, !len_app, Hhead, Hflat; lia).
  unfold _parse_sid. rewrite decide_False.
  2: { intros [Hnil|?]; [|lia]. rewrite Hnil in Hlen. unfold len in Hlen at 1. simpl in Hlen. lia. }
  unfold parse_sid_body.
  assert (getitem (sid_bytes revision authority subs ++ extra) 0 = Ok (byte_of_Z revision))
    as -> by apply (getitem_app_at [] (byte_of_Z revision)).
  assert (getitem (sid_bytes revision authority subs ++ extra) 1 = Ok (byte_of_Z (len subs)))
    as -> by apply (getitem_app_after [] (byte_of_Z revision) (byte_of_Z (len subs))).
  cbn [mbind result_bind].
  rewrite !byte_val_of_Z, !Z.mod_small by lia.
  rewrite decide_False by lia.
  assert (slice (sid_bytes revision authority subs ++ extra) 2 8 = rev (le_bytes 6 authority))
    as ->.
  { unfold sid_bytes. rewrite <- !app_assoc.
    rewrite (slice_app_r [byte_of_Z revision; byte_of_Z (len subs)]) by (unfold len; simpl; lia).
    change (2 - len [byte_of_Z revision; byte_of_Z (len subs)]) with 0.
    change (8 - len [byte_of_Z revision; byte_of_Z (len subs)]) with 6.
    replace 6 with (len (rev (le_bytes 6 authority))) at 1
      by (unfold len; by rewrite length_rev, length_le_bytes).
    rewrite slice_app_l by (unfold len; lia). apply slice_full. }
  unfold int_from_bytes_big. rewrite rev_involutive.
  rewrite int_from_le_bytes by (change (256 ^ Z.of_nat 6) with (2 ^ 48); lia).
  rewrite Hdata. cbn zeta.
  rewrite (sid_sub_authorities subs extra Hsubs head 0) by (rewrite Hhead; lia).
  done.
Qed.

Lemma sid_round_trip_witness :
  _parse_sid (sid_bytes 1 5 [] ++ [Byte.xff]) = Ok (Some "S-1-5-"%string)
  ∧ _parse_sid (sid_bytes 1 5 [32; 544]) = Ok (Some "S-1-5-32-544"%string).
Proof.
  split.
  - apply (sid_round_trip 1 5 [] [Byte.xff]); [lia | lia | constructor | vm_compute; reflexivity].
  - rewrite <- (app_nil_r (sid_bytes 1 5 [32; 544])).
    apply (sid_round_trip 1 5 [32; 544] []);
      [lia | lia | repeat constructor; lia | vm_compute; reflexivity].
Defined.


(** ** The checks of utils.py and the parser *)

Lemma _parse_header_Ok_inv (data : bytes) h :
  _parse_header data = Ok h →
  48 <= len data ∧ slice data 4 8 = EVT_SIGNATURE
  ∧ start_offset h = int_from_bytes_little (slice data 16 20)
  ∧ flags h = int_from_bytes_little (slice data 36 40).
Proof.
  intros Hh. destruct (decide (48 <= len data)) as [Hlen|Hlen].
  - destruct (decide (slice data 4 8 = EVT_SIGNATURE)) as [Hs|Hs].
    + destruct (_parse_header_returns data Hlen Hs) as (h' & Hh' & ? & ? & _).
      assert (h' = h) as -> by congruence. done.
    + destruct (_parse_header_bad_magic data Hlen Hs) as (msg & ?). congruence.
  - unfold _parse_header, EVT_HEADER_SIZE in Hh. by rewrite decide_True in Hh by lia.
Qed.

(** The eager parse of a buffer of 48 bytes or more with the magic
    returns. *)
Lemma parse_evt_data_returns input_path (data : bytes) :
  48 <= len data → slice data 4 8 = EVT_SIGNATURE →
  ∃ r, parse_evt_data input_path data = Ok r.
Proof.
  intros Hlen Hsig. unfold parse_evt_data, EVT_HEADER_SIZE.
  destruct (decide (len data < 48)); [lia|].
  destruct (_parse_header_returns data Hlen Hsig) as (h & -> & _ & _ & Hpos).
  cbn [mbind result_bind].
  destruct (walk_returns (S (length data)) data (walker_at (start_offset h)))
    as [st Hw]; [done | cbn; unfold len; lia |].
  unfold walker_at in Hw. rewrite Hw. cbn [mbind result_bind]. eauto.
Qed.

(** What reading [n] bytes at the start of a file gives. *)
Lemma f_read_start (buf : bytes) n :
  0 <= n → fst (f_read n {| f_buf := buf; f_pos := 0 |}) = Ok (slice buf 0 n).
Proof.
  intros Hn. unfold f_read. cbn. rewrite slice_nonneg by lia.
  by replace (Z.to_nat n - Z.to_nat 0)%nat with (Z.to_nat n) by lia.
Qed.

(** What [validate_legacy_evt_signature] does with a file that can be
    read. *)
Lemma validate_legacy_evt_signature_run (fs : gmap string bytes) (input_file : string)
    (data : bytes) :
  fs !! input_file = Some data →
  ∃ too_small no_magic,
    validate_legacy_evt_signature fs input_file
    = if decide (len data < 8) then Raise (FileValidationError too_small)
      else if decide (slice data 4 8 ≠ EVT_SIGNATURE)
           then Raise (FileValidationError no_magic)
           else Ok ().
Proof.
  intros Hfs. unfold validate_legacy_evt_signature. rewrite Hfs.
  pose proof (f_read_start data (EVT_SIGNATURE_OFFSET + len EVT_SIGNATURE) ltac:(done)) as Hr.
  destruct (f_read _ _) as [r f]. cbn in Hr. subst r.
  change (EVT_SIGNATURE_OFFSET + len EVT_SIGNATURE) with 8. change EVT_SIGNATURE_OFFSET with 4.
  pose proof (len_nonneg data). eexists _, _.
  destruct (decide (len data < 8)) as [Hlen|Hlen].
  - rewrite decide_True; [done|].
    unfold len at 1. rewrite slice_nonneg by lia. rewrite length_take, length_drop.
    unfold len in Hlen. lia.
  - rewrite decide_False by (unfold len at 1; rewrite length_slice by lia; lia).
    by rewrite (slice_slice data 0 8 4 8) by lia.
Qed.

(** X7. [validate_legacy_evt_signature] accepts exactly the files that exist,
    hold at least 8 bytes and carry the magic at offset 4; for every other
    path it raises [FileValidationError]. *)
Theorem validate_legacy_evt_signature_accepts (fs : gmap string bytes) (input_file : string) :
  (validate_legacy_evt_signature fs input_file = Ok ()
   ↔ ∃ data : bytes, fs !! input_file = Some data ∧ 8 <= len data
                     ∧ slice data 4 8 = EVT_SIGNATURE)
  ∧ (validate_legacy_evt_signature fs input_file = Ok ()
     ∨ ∃ msg, validate_legacy_evt_signature fs input_file = Raise (FileValidationError msg)).
Proof.
  destruct (fs !! input_file) as [data|] eqn:Hfs.
  - destruct (validate_legacy_evt_signature_run fs input_file data Hfs)
      as (too_small & no_magic & ->).
    destruct (decide (len data < 8)) as [Hlen|Hlen].
    { split; [|eauto]. split; [done|]. intros (d & [= <-] & ? & _). lia. }
    destruct (decide (slice data 4 8 ≠ EVT_SIGNATURE)) as [Hsig|Hsig].
    { split; [|eauto]. split; [done|]. intros (d & [= <-] & _ & ?). done. }
    split; [|eauto]. split; [|done]. intros _. exists data.
    split; [done|]. split; [lia|]. by destruct (decide (slice data 4 8 = EVT_SIGNATURE)).
  - unfold validate_legacy_evt_signature. rewrite Hfs.
    split; [|eauto]. split; [done|]. by intros (? & ? & _).
Qed.

Lemma validate_legacy_evt_signature_accepts_witness :
  validate_legacy_evt_signature {[ "System.evt"%string := sample_log ]} "System.evt" = Ok ().
Proof.
  apply (validate_legacy_evt_signature_accepts
           {[ "System.evt"%string := sample_log ]} "System.evt").
  exists sample_log. split; [vm_compute; reflexivity|].
  split; [vm_compute; intros Hc; discriminate Hc | vm_compute; reflexivity].
Defined.


(** X8. For a regular file that can be read, the eager parse returns an
    outcome exactly when [validate_legacy_evt_signature] accepts the file
    and the file holds at least 48 bytes; when it does not return an
    outcome it raises [FileValidationError]. *)
Theorem parse_accepts_validated_files
    (fs : gmap string bytes) (input_file : string) (data : bytes) :
  fs !! input_file = Some data →
  ((∃ r, parse_evt_file fs input_file = Ok r)
   ↔ validate_legacy_evt_signature fs input_file = Ok () ∧ 48 <= len data)
  ∧ ((∃ r, parse_evt_file fs input_file = Ok r)
     ∨ ∃ msg, parse_evt_file fs input_file = Raise (FileValidationError msg)).
Proof.
  intros Hfs.
  assert (validate_legacy_evt_signature fs input_file = Ok ()
          ↔ 8 <= len data ∧ slice data 4 8 = EVT_SIGNATURE) as Hval.
  { destruct (validate_legacy_evt_signature_run fs input_file data Hfs)
      as (too_small & no_magic & ->).
    destruct (decide (len data < 8)); [split; [done|lia]|].
    destruct (decide (slice data 4 8 ≠ EVT_SIGNATURE)); [split; [done|by intros [_ ?]]|].
    split; [|done]. intros _. split; [lia|].
    by destruct (decide (slice data 4 8 = EVT_SIGNATURE)). }
  unfold parse_evt_file. rewrite Hfs.
  destruct (decide (48 <= len data)) as [Hlen|Hlen].
  - destruct (decide (slice data 4 8 = EVT_SIGNATURE)) as [Hsig|Hsig].
    + destruct (parse_evt_data_returns input_file data Hlen Hsig) as [r Hr].
      split; [|eauto]. split; [|eauto]. intros _. split; [|done].
      apply Hval. split; [lia|done].
    + assert (∃ msg, parse_evt_data input_file data = Raise (FileValidationError msg))
        as [msg Hmsg].
      { unfold parse_evt_data, EVT_HEADER_SIZE. rewrite decide_False by lia.
        destruct (_parse_header_bad_magic data Hlen Hsig) as (msg & ->). eauto. }
      rewrite Hmsg. split; [|eauto]. split; [by intros [? ?]|].
      intros [Hv _]. apply Hval in Hv as [_ ?]. done.
  - assert (∃ msg, parse_evt_data input_file data = Raise (FileValidationError msg))
      as [msg Hmsg].
    { unfold parse_evt_data, EVT_HEADER_SIZE. rewrite decide_True by lia. eauto. }
    rewrite Hmsg. split; [|eauto]. split; [by intros [? ?]|].
    intros [_ ?]. lia.
Qed.

Lemma parse_accepts_validated_files_witness :
  (∃ r, parse_evt_file {[ "System.evt"%string := sample_log ]} "System.evt" = Ok r)
  ∧ ∃ msg, parse_evt_file {[ "System.evt"%string := sample_eof ]} "System.evt"
           = Raise (FileValidationError msg).
Proof.
  split.
  - apply (parse_accepts_validated_files
             {[ "System.evt"%string := sample_log ]} "System.evt" sample_log);
      [vm_compute; reflexivity|].
    split; [vm_compute; reflexivity | vm_compute; intros Hc; discriminate Hc].
  - destruct (parse_accepts_validated_files
                {[ "System.evt"%string := sample_eof ]} "System.evt" sample_eof)
      as [_ [[r Hr]|Hraise]]; [vm_compute; reflexivity | | exact Hraise].
    vm_compute in Hr. discriminate Hr.
Defined.


(** The slice of the flags word, as [is_evt_dirty] reads it. *)
Lemma is_evt_dirty_read (fs : gmap string bytes) (input_file : string) (data : bytes) :
  fs !! input_file = Some data →
  ∃ too_small,
    is_evt_dirty fs input_file
    = if decide (len (slice data 36 40) < 4) then Raise (FileValidationError too_small)
      else Ok (bool_decide (Z.land (flags_field data) EVT_FLAG_DIRTY ≠ 0)).
Proof.
  intros Hfs. unfold is_evt_dirty. rewrite Hfs.
  cbv [mbind io_bind f_seek f_read f_buf f_pos].
  change (take (Z.to_nat 4) (drop (Z.to_nat EVT_FLAGS_OFFSET) data))
    with (take (Z.to_nat 40 - Z.to_nat 36) (drop (Z.to_nat 36) data)).
  rewrite <- (slice_nonneg data 36 40) by lia. eauto.
Qed.

(** For a file of 40 bytes or more [is_evt_dirty] gives bit 0 of the flags
    word. *)
Lemma is_evt_dirty_long (fs : gmap string bytes) (input_file : string) (data : bytes) :
  fs !! input_file = Some data → 40 <= len data →
  is_evt_dirty fs input_file = Ok (Z.testbit (flags_field data) 0).
Proof.
  intros Hfs Hlong. destruct (is_evt_dirty_read fs input_file data Hfs) as [msg ->].
  rewrite decide_False by (unfold len at 1; rewrite length_slice by lia; lia).
  f_equal. unfold EVT_FLAG_DIRTY.
  rewrite Z.bit0_odd. change 1 with (Z.ones 1). rewrite Z.land_ones by lia.
  change (2 ^ 1) with 2. rewrite Zodd_mod.
  destruct (Z.eqb_spec (flags_field data mod 2) 1) as [->|Hne].
  - by apply bool_decide_eq_true_2.
  - apply bool_decide_eq_false_2. pose proof (Z.mod_pos_bound (flags_field data) 2). lia.
Qed.

(** X9. [is_evt_dirty] raises [FileValidationError] for a missing file and
    for a file of fewer than 40 bytes, and otherwise returns bit 0 of the
    little-endian word at offset 36. *)
Theorem is_evt_dirty_reads_flag (fs : gmap string bytes) (input_file : string) :
  match fs !! input_file with
  | Some data =>
      if decide (len data < 40)
      then ∃ msg, is_evt_dirty fs input_file = Raise (FileValidationError msg)
      else is_evt_dirty fs input_file = Ok (Z.testbit (flags_field data) 0)
  | None => ∃ msg, is_evt_dirty fs input_file = Raise (FileValidationError msg)
  end.
Proof.
  destruct (fs !! input_file) as [data|] eqn:Hfs.
  - destruct (decide (len data < 40)) as [Hshort|Hlong].
    + destruct (is_evt_dirty_read fs input_file data Hfs) as [msg ->].
      rewrite decide_True; [eauto|]. pose proof (len_nonneg data).
      unfold len at 1. rewrite slice_nonneg by lia. rewrite length_take, length_drop.
      unfold len in Hshort. lia.
    + apply (is_evt_dirty_long fs input_file data Hfs). lia.
  - unfold is_evt_dirty. rewrite Hfs. eauto.
Qed.

Lemma is_evt_dirty_reads_flag_witness :
  is_evt_dirty {[ "System.evt"%string := sample_log ]} "System.evt" = Ok true
  ∧ ∃ msg, is_evt_dirty {[ "System.evt"%string := sample_log ]} "Other.evt"
           = Raise (FileValidationError msg).
Proof.
  split.
  - exact (is_evt_dirty_reads_flag {[ "System.evt"%string := sample_log ]} "System.evt").
  - exact (is_evt_dirty_reads_flag {[ "System.evt"%string := sample_log ]} "Other.evt").
Defined.


(** X10. For a file whose header the parser accepts, [is_evt_dirty] returns
    the [is_dirty] property of the parsed header. *)
Theorem is_evt_dirty_agrees_with_header
    (fs : gmap string bytes) (input_file : string) (data : bytes) h :
  fs !! input_file = Some data → _parse_header data = Ok h →
  is_evt_dirty fs input_file = Ok (is_dirty h).
Proof.
  intros Hfs Hh. apply _parse_header_Ok_inv in Hh as (Hlen & _ & _ & Hflags).
  rewrite (is_evt_dirty_long fs input_file data Hfs) by lia. f_equal.
  unfold is_dirty. rewrite Hflags. fold (flags_field data).
  rewrite Z.bit0_odd. change 1 with (Z.ones 1). rewrite Z.land_ones by lia.
  change (2 ^ 1) with 2. rewrite Zodd_mod.
  destruct (Z.eqb_spec (flags_field data mod 2) 1) as [->|Hne].
  - symmetry. by apply bool_decide_eq_true_2.
  - symmetry. apply bool_decide_eq_false_2.
    pose proof (Z.mod_pos_bound (flags_field data) 2). lia.
Qed.

Lemma is_evt_dirty_agrees_with_header_witness :
  ∃ h, _parse_header sample_log = Ok h
       ∧ is_evt_dirty {[ "System.evt"%string := sample_log ]} "System.evt" = Ok (is_dirty h)
       ∧ is_dirty h = true.
Proof.
  eexists. split; [vm_compute; reflexivity|]. split; [|vm_compute; reflexivity].
  apply (is_evt_dirty_agrees_with_header {[ "System.evt"%string := sample_log ]}
           "System.evt" sample_log); vm_compute; reflexivity.
Defined.


(** ** Repair and the parser *)

(** The copy a successful repair stores: where it is stored, its flags word,
    its length, and the bytes it shares with the source. *)
Lemma repair_dirty_evt_result (entry : string → string) (d : disk) (input_file : string)
    (output_file : option string) (temp_path : string) (content : bytes) :
  let out := default temp_path output_file in
  files d !! entry input_file = Some content →
  apart entry d input_file output_file temp_path →
  (find content EOF_SIGNATURE 0 - 4) + 40 < 2 ^ 32 →
  ∃ copy d',
    repair_dirty_evt entry d input_file output_file temp_path = (Ok out, d')
    ∧ files d' !! entry out = Some copy
    ∧ files d' !! entry input_file = Some content
    ∧ 40 <= len copy
    ∧ flags_field copy = 2 * (flags_field content / 2)
    ∧ (40 <= len content →
       len copy = len content ∧ slice copy 0 20 = slice content 0 20
       ∧ slice copy 32 36 = slice content 32 36
       ∧ slice copy 40 (len copy) = slice content 40 (len content)).
Proof.
  intros out Hin Hout Hfit.
  destruct (repair_dirty_evt_run entry d input_file output_file temp_path content Hin Hout)
    as (r & f & Hrun & ->). fold out.
  pose proof (λ c, write_file_keeps_source entry d input_file output_file temp_path
                     content c Hin Hout) as Hkept. fold out in Hkept.
  destruct (patch_copy_run content) as (r' & f' & Hrun' & Hspec).
  rewrite Hrun in Hrun'. injection Hrun' as <- <-.
  set (p := find content EOF_SIGNATURE 0) in *.
  pose proof (int_from_slice4_range content 36 ltac:(lia)) as Hflags.
  change (36 + 4) with 40 in Hflags. fold (flags_field content) in Hflags.
  rewrite clear_dirty in Hspec.
  assert (0 <= 2 * (flags_field content / 2) < 2 ^ 32) as Hnf.
  { pose proof (Z.div_mod (flags_field content) 2 ltac:(lia)).
    pose proof (Z.mod_pos_bound (flags_field content) 2 ltac:(lia)). lia. }
  pose proof (len_nonneg content).
  destruct (decide (p >= 0)) as [Hp|Hp].
  - destruct (decide (2 ^ 32 <= p - 4 + 40)); [lia|]. destruct Hspec as [-> Hbuf].
    eexists (f_buf f), _. split; [done|]. split; [apply files_write_file|].
    split; [apply Hkept|].
    pose proof (int_from_slice4_range content (p + 24) ltac:(lia)) as Hc.
    pose proof (int_from_slice4_range content (p + 28) ltac:(lia)) as Ho.
    replace (p + 24 + 4) with (p + 28) in Hc by lia.
    replace (p + 28 + 4) with (p + 32) in Ho by lia.
    rewrite Hbuf.
    match goal with |- context [write_at (write_at (write_at (write_at _ _ (le_bytes 4 ?nf))
                                   _ (le_bytes 4 ?e)) _ (le_bytes 4 ?c)) _ (le_bytes 4 ?o)] =>
      destruct (patched_fields content nf e c o) as (-> & _); [done|lia|done|done|];
      pose proof (patched_rest content nf e c o) as Hrest end.
    split; [rewrite !word_len by lia; lia|]. split; [done|]. exact Hrest.
  - destruct Hspec as [-> Hbuf]. eexists (f_buf f), _. split; [done|]. split; [apply files_write_file|].
    split; [apply Hkept|].
    rewrite Hbuf, cleared_fields by done.
    split; [rewrite word_len by lia; lia|]. split; [done|].
    intros Hlen. split; [rewrite word_len by lia; lia|].
    split; [by rewrite word_before by lia|]. split; [by rewrite word_before by lia|].
    rewrite word_len by lia. replace (Z.max (len content) (36 + 4)) with (len content) by lia.
    by rewrite word_after by lia.
Qed.

(** X11. Take a path that names a regular file that can be read, and an
    output that is apart from it: a path that names no file yet or a regular
    file other than the source's (not the source under another spelling, nor
    a link to it), or none and a temporary name that no file has; let the
    EOF pattern be absent from the source or start at a [p] with
    [(p − 4) + 40 < 2^32].  Then the repair returns, [is_evt_dirty] of the
    file it returns is [False], and [is_evt_dirty] of the source gives what
    it gave before. *)
Theorem repaired_copy_is_clean (entry : string → string) (d : disk) (input_file : string)
    (output_file : option string) (temp_path : string) (content : bytes) :
  files d !! entry input_file = Some content →
  apart entry d input_file output_file temp_path →
  (find content EOF_SIGNATURE 0 - 4) + 40 < 2 ^ 32 →
  ∃ out d',
    repair_dirty_evt entry d input_file output_file temp_path = (Ok out, d')
    ∧ is_evt_dirty (files d') (entry out) = Ok false
    ∧ is_evt_dirty (files d') (entry input_file) = is_evt_dirty (files d) (entry input_file).
Proof.
  intros Hin Hout Hfit.
  destruct (repair_dirty_evt_result entry d input_file output_file temp_path content
              Hin Hout Hfit) as (copy & d' & Hrep & Hcopy & Hsrc & Hlen & Hflags & _).
  eexists _, _. split; [exact Hrep|]. split.
  - rewrite (is_evt_dirty_long (files d') _ copy Hcopy) by lia.
    rewrite Hflags. by rewrite Z.testbit_even_0.
  - unfold is_evt_dirty. by rewrite Hsrc, Hin.
Qed.

Lemma repaired_copy_is_clean_witness :
  is_evt_dirty (files sample_disk) "System.evt" = Ok true
  ∧ ∃ out d',
      repair_dirty_evt sample_entry sample_disk "System.evt" None
        "System_repaired_x.evt.tmp" = (Ok out, d')
      ∧ is_evt_dirty (files d') (sample_entry out) = Ok false
      ∧ is_evt_dirty (files d') (sample_entry "System.evt") = Ok true.
Proof.
  split; [vm_compute; reflexivity|].
  destruct (repaired_copy_is_clean sample_entry sample_disk "System.evt" None
              "System_repaired_x.evt.tmp" sample_log)
    as (out & d' & Hrep & Hclean & Hsrc);
    [vm_compute; reflexivity | vm_compute; reflexivity | vm_compute; reflexivity |].
  exists out, d'. split; [exact Hrep|]. split; [exact Hclean|].
  rewrite Hsrc. vm_compute. reflexivity.
Defined.


(** Two buffers of one length that hold the same bytes from [from] on. *)
Lemma slice_tail_agree {A} (l l' : list A) from :
  0 <= from → len l = len l' → slice l from (len l) = slice l' from (len l') →
  ∀ a b, from <= a → a <= b → slice l a b = slice l' a b.
Proof.
  intros Hfrom Hlen Htail a b Ha Hb.
  assert (∀ k : list A, slice k a b = slice (slice k from (len k)) (a - from) (b - from))
    as Hk.
  { intros k. pose proof (len_nonneg k).
    rewrite (slice_nonneg k from (len k)) by lia.
    rewrite (take_ge _ (Z.to_nat (len k) - Z.to_nat from))
      by (rewrite length_drop; unfold len; lia).
    rewrite slice_drop by lia. f_equal; lia. }
  by rewrite (Hk l), (Hk l'), Htail.
Qed.

Section agree.
Variables (data data' : bytes) (from : Z).
Hypothesis Hfrom : 0 <= from.
Hypothesis Hlen : len data = len data'.
Hypothesis Hagree : ∀ a b, from <= a → a <= b → slice data a b = slice data' a b.

Lemma find_agree sub start :
  from <= start → find data sub start = find data' sub start.
Proof.
  intros Hs. unfold find. destruct (decide (start < 0)); [lia|]. rewrite Hlen.
  case_decide; [done|]. f_equal.
  assert (∀ k : bytes, len k = len data' → drop (Z.to_nat start) k = slice k start (len k))
    as Hk.
  { intros k Hk. rewrite slice_nonneg by lia. rewrite take_ge; [done|].
    rewrite length_drop. unfold len. lia. }
  rewrite (Hk data Hlen), (Hk data' eq_refl), Hlen. apply Hagree; lia.
Qed.

(** The record decoder looks at nothing before the offset it is given. *)
Lemma _parse_event_record_agree offset :
  from <= offset → _parse_event_record data offset = _parse_event_record data' offset.
Proof.
  intros Ho. unfold _parse_event_record. rewrite Hlen.
  case_decide; [done|]. rewrite !(Hagree offset (offset + 4)) by lia.
  rewrite !(Hagree (offset + 4) (offset + 8)) by lia.
  destruct (unpack_I (slice data' offset (offset + 4))) as [size| |]; [|done..].
  cbn [mbind result_bind]. repeat (case_decide; [done|]).
  unfold EVENTLOGRECORD_HEADER_SIZE in *.
  by rewrite (Hagree offset (offset + size)) by lia.
Qed.

Lemma walk_body_agree st :
  from <= w_offset st → walk_body data st = walk_body data' st.
Proof.
  intros Ho. unfold walk_body.
  rewrite !(Hagree (w_offset st + 4) (w_offset st + 8)) by lia.
  rewrite find_agree by lia. by rewrite _parse_event_record_agree.
Qed.

(** The walk from an offset at or after [from] is the same on both. *)
Lemma walk_agree fuel st :
  from <= w_offset st → walk fuel data st = walk fuel data' st.
Proof.
  revert st. induction fuel as [|fuel IH]; intros st Ho; cbn [walk]; rewrite Hlen;
    [done|].
  case_decide as Hlt; [|done]. rewrite walk_body_agree by done.
  destruct (walk_body_progress data' st) as [[st1 ->]|(st1 & -> & Hadv)]; [lia|done|done|].
  apply IH. lia.
Qed.

End agree.

(** X12. Repair does not change what the parser decodes.  Take a path that
    names a regular file that can be read, and an output that is apart from
    it: a path that names no file yet or a regular file other than the
    source's (not the source under another spelling, nor a link to it), or
    none and a temporary name that no file has; let the EOF pattern be
    absent from the source or start at a [p] with [(p − 4) + 40 < 2^32].
    When a parse of the source returns and the start offset of its header
    is 40 or more, the repair returns and a parse of the repaired copy
    returns too, with the same records, counts and errors and the same start
    offset; the copy's header is not dirty and is wrapped exactly when the
    source's is. *)
Theorem repair_preserves_parse (entry : string → string) (d : disk) (input_file : string)
    (output_file : option string) (temp_path : string) (content : bytes) r :
  files d !! entry input_file = Some content →
  apart entry d input_file output_file temp_path →
  (find content EOF_SIGNATURE 0 - 4) + 40 < 2 ^ 32 →
  parse_evt_file (files d) (entry input_file) = Ok r → 40 <= start_offset (header r) →
  ∃ out d' r',
    repair_dirty_evt entry d input_file output_file temp_path = (Ok out, d')
    ∧ parse_evt_file (files d') (entry out) = Ok r'
    ∧ records r' = records r ∧ total_records r' = total_records r
    ∧ valid_records r' = valid_records r ∧ parse_errors r' = parse_errors r
    ∧ errors r' = errors r
    ∧ start_offset (header r') = start_offset (header r)
    ∧ is_dirty (header r') = false
    ∧ is_wrapped (header r') = is_wrapped (header r).
Proof.
  intros Hin Hout Hfit Hparse Hstart.
  destruct (repair_dirty_evt_result entry d input_file output_file temp_path content
              Hin Hout Hfit) as (copy & d' & Hrep & Hcopy & Hsrc & Hlen40 & Hflags & Hrest).
  unfold parse_evt_file in Hparse. rewrite Hin in Hparse.
  apply parse_evt_data_outcome in Hparse
    as (st & Hw & Hh & Hlen & Hrec & Htot & Hval & Herr & Hperr).
  apply _parse_header_Ok_inv in Hh as (_ & Hsig & Hso & Hfl).
  destruct Hrest as (Hlc & H020 & H3236 & Htail); [lia|].
  assert (∀ a b, 0 <= a → a <= b → b <= 20 → slice copy a b = slice content a b) as Hhead.
  { intros a b ? ? ?.
    pose proof (slice_slice copy 0 20 a b ltac:(lia) ltac:(lia) ltac:(lia) ltac:(lia)) as E1.
    pose proof (slice_slice content 0 20 a b ltac:(lia) ltac:(lia) ltac:(lia) ltac:(lia)) as E2.
    rewrite !Z.add_0_l in E1, E2. by rewrite <- E1, <- E2, H020. }
  pose proof (slice_tail_agree copy content 40 ltac:(lia) Hlc Htail) as Hagree.
  set (out := default temp_path output_file) in *.
  destruct (_parse_header_returns copy) as (h' & Hh' & Hso' & Hfl' & _);
    [lia | by rewrite Hhead by lia |].
  rewrite Hhead in Hso' by lia.
  assert (parse_evt_data (entry out) copy
          = Ok {| source_file := entry out; header := h'; records := w_records st;
                  total_records := w_record_count st;
                  valid_records := len (w_records st);
                  parse_errors := len (w_errors st); errors := w_errors st |}) as Hp'.
  { unfold parse_evt_data, EVT_HEADER_SIZE. rewrite decide_False by lia.
    rewrite Hh'. cbn [mbind result_bind].
    fold (walker_at (start_offset h')).
    rewrite (walk_agree copy content 40 ltac:(lia) Hlc Hagree) by (cbn; lia).
    replace (length copy) with (length content) by (unfold len in Hlc; lia).
    rewrite Hso', <- Hso, Hw. done. }
  eexists out, _, _. split; [exact Hrep|].
  split; [unfold parse_evt_file; rewrite Hcopy; exact Hp'|].
  cbn [records total_records valid_records parse_errors errors header].
  repeat (split; [congruence|]).
  assert (flags h' = 2 * (flags (header r) / 2)) as Hf.
  { rewrite Hfl', Hfl. exact Hflags. }
  unfold is_dirty, is_wrapped. rewrite Hf. split.
  - apply bool_decide_eq_false_2. intros Hbit. apply Hbit.
    change 1 with (Z.ones 1). rewrite Z.land_ones by lia. change (2 ^ 1) with 2.
    rewrite Z.mul_comm. apply Z.mod_mul. lia.
  - apply bool_decide_ext.
    assert (∀ v, Z.land v 2 ≠ 0 ↔ Z.testbit v 1 = true) as Hbit.
    { intros v. rewrite <- (Z.bits_inj_iff' (Z.land v 2) 0). split.
      - intros Hv. destruct (Z.testbit v 1) eqn:E; [done|]. exfalso. apply Hv.
        intros n Hn. rewrite Z.land_spec, Z.bits_0.
        destruct (decide (n = 1)) as [->|]; [by rewrite E|].
        change 2 with (2 ^ 1). rewrite Z.pow2_bits_false by lia. apply andb_false_r.
      - intros Hv Hz. specialize (Hz 1 ltac:(lia)).
        rewrite Z.land_spec, Hv, Z.bits_0 in Hz. done. }
    rewrite !Hbit. change 1 with (Z.succ 0).
    rewrite Z.testbit_even_succ by lia.
    by rewrite Z.div2_bits by lia.
Qed.

Lemma repair_preserves_parse_witness :
  ∃ r out d' r',
    parse_evt_file (files sample_disk) (sample_entry "System.evt") = Ok r
    ∧ repair_dirty_evt sample_entry sample_disk "System.evt" None
        "System_repaired_x.evt.tmp" = (Ok out, d')
    ∧ parse_evt_file (files d') (sample_entry out) = Ok r'
    ∧ records r' = records r ∧ is_dirty (header r') = false.
Proof.
  edestruct (repair_preserves_parse sample_entry sample_disk "System.evt" None
               "System_repaired_x.evt.tmp" sample_log)
    as (out & d' & r' & Hrep & Hp' & Hrec & _ & _ & _ & _ & _ & Hd & _);
    [vm_compute; reflexivity | vm_compute; reflexivity | vm_compute; reflexivity
    | vm_compute; reflexivity | vm_compute; discriminate |].
  eexists _, out, d', r'. split; [vm_compute; reflexivity|].
  split; [exact Hrep|]. split; [exact Hp'|]. split; [exact Hrec | exact Hd].
Defined.


(** ** The CSV cell sanitiser *)

Lemma hex_digits_printable (d : Hexadecimal.uint) :
  Forall (fun c => 32 <= Z.of_N (N_of_ascii c))
         (list_ascii_of_string (HexadecimalString.NilEmpty.string_of_uint d)).
Proof.
  induction d; cbn [HexadecimalString.NilEmpty.string_of_uint list_ascii_of_string];
    constructor; try done; by vm_compute.
Qed.

Lemma list_ascii_of_string_app s1 s2 :
  list_ascii_of_string (s1 +:+ s2) = list_ascii_of_string s1 ++ list_ascii_of_string s2.
Proof. induction s1 as [|c s1 IH]; [done|]. simpl. by f_equal. Qed.

Lemma format_02x_printable (n : Z) :
  Forall (fun c => 32 <= c) (unicode_of_string (format_02x n)).
Proof.
  unfold unicode_of_string. apply Forall_fmap. unfold format_02x.
  assert (∀ d, Forall (fun c => 32 <= Z.of_N (N_of_ascii c))
                 (list_ascii_of_string (HexadecimalString.NilZero.string_of_uint d))) as Hd.
  { intros d. unfold HexadecimalString.NilZero.string_of_uint.
    destruct d; try apply hex_digits_printable. by repeat constructor. }
  repeat case_decide; rewrite ?list_ascii_of_string_app; try apply Forall_app;
    try split; try apply Hd; by repeat constructor.
Qed.

(** A replacement whose pattern starts with a character that does not occur
    changes nothing. *)
Lemma str_replace_absent (s : unicode) o (old new : unicode) :
  o ∉ s → str_replace s (o :: old) new = s.
Proof.
  unfold str_replace. induction s as [|c s IH]; [done|].
  intros Hnot. apply not_elem_of_cons in Hnot as [Hne Hs].
  cbn [replace_from]. rewrite bool_decide_eq_false_2.
  - by rewrite IH.
  - intros [k Hk]. injection Hk as -> _. done.
Qed.

(** The escape of a control character is made of printable characters. *)
Lemma escape_printable (code : Z) :
  Forall (fun ch => 32 <= ch) (unicode_of_string ("\x" +:+ format_02x code)).
Proof.
  unfold unicode_of_string. rewrite list_ascii_of_string_app, fmap_app.
  apply Forall_app. split; [by repeat constructor|]. apply format_02x_printable.
Qed.

(** X13. Whatever the cell, the sanitised cell holds no character below
    U+0020: no line break, tab or other control character. *)
Theorem sanitized_cell_has_no_control_character (value : unicode) :
  Forall (fun ch => 32 <= ch) (_sanitize_csv_cell value).
Proof.
  unfold _sanitize_csv_cell. case_decide as Hnil; [by subst|].
  apply Forall_flat_map, Forall_forall. intros ch _.
  case_decide; [|by apply Forall_singleton, Z.nlt_ge].
  apply escape_printable.
Qed.

(** X14. A cell without a character below U+0020 is returned as it is, so
    that sanitising twice is sanitising once. *)
Theorem sanitize_keeps_clean_cells (value : unicode) :
  (Forall (fun ch => 32 <= ch) value → _sanitize_csv_cell value = value)
  ∧ _sanitize_csv_cell (_sanitize_csv_cell value) = _sanitize_csv_cell value.
Proof.
  assert (∀ v : unicode, Forall (fun ch => 32 <= ch) v → _sanitize_csv_cell v = v) as Hclean.
  { intros v Hv. unfold _sanitize_csv_cell. case_decide; [done|].
    assert (∀ o, o < 32 → o ∉ v) as Habs.
    { intros o Ho Hin. rewrite Forall_forall in Hv. apply Hv in Hin. lia. }
    rewrite (str_replace_absent v 13 [10]) by (apply Habs; lia).
    rewrite (str_replace_absent v 13 []) by (apply Habs; lia).
    rewrite (str_replace_absent v 10 []) by (apply Habs; lia).
    rewrite (str_replace_absent v 9 []) by (apply Habs; lia).
    clear -Hv. induction Hv as [|c v Hc Hv IH]; [done|].
    cbn [flat_map]. rewrite decide_False by lia. by rewrite IH. }
  split; [apply Hclean|]. apply Hclean.
  unfold _sanitize_csv_cell. case_decide as Hnil; [by subst|].
  apply Forall_flat_map, Forall_forall. intros ch _.
  case_decide; [apply escape_printable | by apply Forall_singleton, Z.nlt_ge].
Qed.

Lemma sanitize_keeps_clean_cells_witness :
  _sanitize_csv_cell (unicode_of_string "Service Control Manager")
  = unicode_of_string "Service Control Manager".
Proof.
  apply (proj1 (sanitize_keeps_clean_cells (unicode_of_string "Service Control Manager"))).
  vm_compute. repeat constructor; discriminate.
Defined.


(** ** The order of the records *)

Lemma frames_between_weaken (data : bytes) lo hi hi' recs :
  frames_between data lo hi recs → hi <= hi' → frames_between data lo hi' recs.
Proof.
  revert lo. induction recs as [|record rest IH]; intros lo; [done|].
  cbn [frames_between]. intros (offset & ? & ? & ? & ? & ? & Hrest) Hhi.
  exists offset. repeat split; try done; [lia|]. by apply IH.
Qed.

Lemma frames_between_to_len (data : bytes) lo hi recs :
  frames_between data lo hi recs → frames_between data lo (len data) recs.
Proof.
  revert lo. induction recs as [|record rest IH]; intros lo; [done|].
  cbn [frames_between]. intros (offset & ? & ? & ? & ? & ? & Hrest).
  exists offset. repeat split; try done. by apply IH.
Qed.

Lemma frames_between_snoc (data : bytes) lo mid hi recs record offset :
  frames_between data lo mid recs → lo <= mid → mid <= offset →
  offset + len (raw_record record) <= hi →
  offset + len (raw_record record) <= len data →
  0 < len (raw_record record) →
  raw_record record = slice data offset (offset + len (raw_record record)) →
  frames_between data lo hi (recs ++ [record]).
Proof.
  revert lo. induction recs as [|r0 rest IH]; intros lo Hrecs Hlo Hmid Hhi Hin Hpos Hraw.
  - cbn. exists offset. repeat split; try done; lia.
  - cbn [frames_between app] in *. destruct Hrecs as (o & ? & ? & ? & ? & ? & Hrest).
    exists o. repeat split; try done; [lia|]. by apply IH.
Qed.

(** X15. The records of an eager outcome come, in the order of the list,
    from spans of the file that lie at or after the header's start offset
    and inside the file and that do not overlap: no byte is decoded into two
    records, and the list follows the file. *)
Theorem records_follow_the_file
    (fs : gmap string bytes) (input_file : string) (data : bytes) r :
  fs !! input_file = Some data → parse_evt_file fs input_file = Ok r →
  frames_between data (start_offset (header r)) (len data) (records r).
Proof.
  intros Hfs. unfold parse_evt_file. rewrite Hfs. intros Hp.
  apply parse_evt_data_outcome in Hp as (st & Hw & Hh & Hlen & -> & _).
  pose proof (_parse_header_start data _ Hlen Hh) as Hstart.
  set (start := start_offset (header r)) in *.
  apply (walk_invariant
           (fun s => start <= w_offset s
                     ∧ frames_between data start (w_offset s) (w_records s)) data) in Hw;
    [by eapply frames_between_to_len, Hw | |done|done].
  clear -Hstart. intros st st' [Hlo HP] Ho Hlt Hb.
  assert (w_offset st <= w_offset st') as Hadv.
  { destruct Hb as [Hb|Hb].
    - unfold walk_body in Hb. repeat case_decide; try done; try (by injection Hb as <-).
      destruct (_parse_event_record data (w_offset st)) as [[[? ?] ?]| |]; [|done..].
      case_decide; [|done]. by injection Hb as <-.
    - destruct (walk_body_progress data st Ho Hlt) as [[? ?]|(? & ? & ?)]; [congruence|].
      assert (x = st') as -> by congruence. lia. }
  split; [lia|].
  destruct (walk_body_effect data st st' Ho Hlt Hb)
    as [(_ & _ & ->)|(_ & [(rec & size & -> & _ & Hoff & Hsig & Hsz & Hrange & Hin & Hdec)
                          |(msg & _ & ->)])];
    try (by eapply frames_between_weaken).
  assert (len (slice data (w_offset st) (w_offset st + size)) = size) as Hl
    by (unfold len at 1; rewrite length_slice by lia; lia).
  destruct (decode_record_fields (slice data (w_offset st) (w_offset st + size)) size rec
              ltac:(lia) Hdec) as (Hraw & _).
  eapply (frames_between_snoc data start (w_offset st) (w_offset st') _ rec (w_offset st));
    rewrite ?Hraw, ?Hl; try done; lia.
Qed.

Lemma records_follow_the_file_witness :
  ∃ r, parse_evt_file {[ "System.evt"%string := sample_log ]} "System.evt" = Ok r
       ∧ frames_between sample_log (start_offset (header r)) (len sample_log) (records r).
Proof.
  eexists. split; [vm_compute; reflexivity|].
  apply (records_follow_the_file {[ "System.evt"%string := sample_log ]} "System.evt"
           sample_log); vm_compute; reflexivity.
Defined.

(** ** The header decoder *)

(** X16. The header decoder, case by case.  Fewer than 48 bytes, or 48 and
    more without the magic at bytes 4 to 8, raise [FileValidationError];
    with the magic there the decoder returns, and each field is the
    little-endian word at its place among the first 48 bytes; the bytes
    after the 48th play no part. *)
Theorem header_decoding (data : bytes) :
  let word pos := int_from_bytes_little (slice data pos (pos + 4)) in
  (len data < 48 → ∃ msg, _parse_header data = Raise (FileValidationError msg))
  ∧ (48 <= len data → slice data 4 8 ≠ EVT_SIGNATURE →
       ∃ msg, _parse_header data = Raise (FileValidationError msg))
  ∧ (48 <= len data → slice data 4 8 = EVT_SIGNATURE →
       ∃ h, _parse_header data = Ok h
         ∧ header_size h = word 0 ∧ signature h = EVT_SIGNATURE
         ∧ major_version h = word 8 ∧ minor_version h = word 12
         ∧ start_offset h = word 16 ∧ end_offset h = word 20
         ∧ current_record_number h = word 24 ∧ oldest_record_number h = word 28
         ∧ max_size h = word 32 ∧ flags h = word 36
         ∧ retention h = word 40 ∧ header_size_copy h = word 44)
  ∧ (48 <= len data → _parse_header (slice_to data 48) = _parse_header data).
Proof.
  intros word. split; [|split; [|split]].
  - intros Hlen. unfold _parse_header, EVT_HEADER_SIZE.
    rewrite decide_True by done. eauto.
  - apply _parse_header_bad_magic.
  - intros Hlen Hsig. unfold _parse_header, EVT_HEADER_SIZE.
    destruct (decide (len data < 48)); [lia|]. unpack_fixed.
    rewrite decide_False by (by intros []).
    eexists. split; [done|]. by cbn.
  - apply _parse_header_prefix.
Qed.

Lemma header_decoding_witness :
  (∃ msg, _parse_header (slice_to sample_log 47) = Raise (FileValidationError msg))
  ∧ (∃ msg, _parse_header (sample_eof ++ sample_eof) = Raise (FileValidationError msg))
  ∧ (∃ h, _parse_header sample_log = Ok h ∧ start_offset h = 48 ∧ flags h = 1)
  ∧ _parse_header (slice_to sample_log 48) = _parse_header sample_log.
Proof.
  split; [|split; [|split]].
  - destruct (header_decoding (slice_to sample_log 47)) as (H & _).
    apply H. vm_compute. reflexivity.
  - destruct (header_decoding (sample_eof ++ sample_eof)) as (_ & H & _).
    apply H; vm_compute; intros Hc; discriminate Hc.
  - destruct (header_decoding sample_log) as (_ & _ & H & _).
    destruct H as (h & Hh & Hf);
      [vm_compute; intros Hc; discriminate Hc | vm_compute; reflexivity |].
    exists h. split; [exact Hh|].
    destruct Hf as (_ & _ & _ & _ & Hs & _ & _ & _ & _ & Hfl & _).
    split; [rewrite Hs | rewrite Hfl]; vm_compute; reflexivity.
  - destruct (header_decoding sample_log) as (_ & _ & _ & H).
    apply H. vm_compute. intros Hc. discriminate Hc.
Defined.

(** ** The batch loop *)

Section batch_facts.

Import converter.

Context {World Exc : Type}.
Variable convert_file : World → Z → Z → string → (ConversionResult + Exc) * World.

Lemma count_status_snoc_l (s : ConversionStatus) (r : ConversionResult)
    (rs : list ConversionResult) :
  count_status s (r :: rs) = (if decide (status r = s) then 1 else 0) + count_status s rs.
Proof.
  unfold count_status, len. rewrite filter_cons.
  destruct (decide (status r = s)); cbn [length]; lia.
Qed.

(** What a completed run of the loop adds to the counters. *)
Lemma batch_loop_effect (continue_on_error : bool) (evt_files : list string) :
  ∀ index w acc s w',
    batch_loop World Exc convert_file continue_on_error index evt_files w acc
      = (Returned s, w') →
    total s = total acc
    ∧ ∃ new, results s = results acc ++ new
        ∧ len new = len evt_files
        ∧ successful s = successful acc + count_status SUCCESS new
        ∧ failed s = failed acc + count_status FAILED new
        ∧ skipped s = skipped acc + count_status SKIPPED new
        ∧ (continue_on_error = false → Forall (fun r => status r ≠ FAILED) new).
Proof.
  induction evt_files as [|evt_file rest IH]; intros index w acc s w' Hrun.
  - cbn in Hrun. injection Hrun as <- <-. split; [done|].
    exists []. rewrite app_nil_r. unfold count_status, len. cbn.
    repeat split; try lia. by constructor.
  - cbn [batch_loop] in Hrun.
    destruct (convert_file w index (total acc) evt_file) as [[result|e] w1]; [|done].
    destruct (status result) eqn:Hst.
    + apply IH in Hrun as (Ht & new & Hres & Hlen & Hs & Hf & Hk & Hno).
      cbn [total successful failed skipped results] in *.
      split; [done|]. exists (result :: new).
      rewrite Hres, <- app_assoc. split; [done|].
      split; [by unfold len in *; cbn; lia|].
      rewrite !count_status_snoc_l, Hst.
      repeat (split; [repeat case_decide; try done; lia|]).
      intros Hc. constructor; [by rewrite Hst | by apply Hno].
    + destruct continue_on_error; cbn [negb] in Hrun; [|done].
      apply IH in Hrun as (Ht & new & Hres & Hlen & Hs & Hf & Hk & Hno).
      cbn [total successful failed skipped results] in *.
      split; [done|]. exists (result :: new).
      rewrite Hres, <- app_assoc. split; [done|].
      split; [by unfold len in *; cbn; lia|].
      rewrite !count_status_snoc_l, Hst.
      repeat (split; [repeat case_decide; try done; lia|]). done.
    + apply IH in Hrun as (Ht & new & Hres & Hlen & Hs & Hf & Hk & Hno).
      cbn [total successful failed skipped results] in *.
      split; [done|]. exists (result :: new).
      rewrite Hres, <- app_assoc. split; [done|].
      split; [by unfold len in *; cbn; lia|].
      rewrite !count_status_snoc_l, Hst.
      repeat (split; [repeat case_decide; try done; lia|]).
      intros Hc. constructor; [by rewrite Hst | by apply Hno].
Qed.

Lemma count_status_total (rs : list ConversionResult) :
  count_status SUCCESS rs + count_status FAILED rs + count_status SKIPPED rs = len rs.
Proof.
  induction rs as [|r rs IH]; [done|].
  rewrite !count_status_snoc_l. unfold len in *. cbn [length].
  destruct (status r); repeat case_decide; try done; lia.
Qed.

(** With [continue_on_error] the loop raises no [ConversionError]. *)
Lemma batch_loop_continues (evt_files : list string) :
  ∀ index w acc msg,
    (batch_loop World Exc convert_file true index evt_files w acc).1
      ≠ RaisedConversionError msg.
Proof.
  induction evt_files as [|evt_file rest IH]; intros index w acc msg; [done|].
  cbn [batch_loop].
  destruct (convert_file w index (total acc) evt_file) as [[result|e] w1]; [|done].
  destruct (status result); cbn [negb]; apply IH.
Qed.

(** With [continue_on_error] the loop returns when every conversion does. *)
Lemma batch_loop_returns (evt_files : list string) :
  (∀ w index n evt_file, ∃ result w', convert_file w index n evt_file = (inl result, w')) →
  ∀ index w acc, ∃ s w',
    batch_loop World Exc convert_file true index evt_files w acc = (Returned s, w').
Proof.
  intros Hconv. induction evt_files as [|evt_file rest IH]; intros index w acc.
  - by eexists _, _.
  - cbn [batch_loop].
    destruct (Hconv w index (total acc) evt_file) as (result & w1 & ->).
    destruct (status result); cbn [negb]; apply IH.
Qed.

(** X17. The summary of a batch that returns.  [total] is the number of
    files found, there is one result per file, each counter is the number of
    results with its status, and the three counters add up to [total]. *)
Theorem batch_summary_counts (continue_on_error : bool) (evt_files : list string)
    (w w' : World) (s : BatchConversionSummary) :
  batch_convert_files World Exc convert_file continue_on_error evt_files w
    = (Returned s, w') →
  total s = len evt_files
  ∧ len (results s) = total s
  ∧ successful s = count_status SUCCESS (results s)
  ∧ failed s = count_status FAILED (results s)
  ∧ skipped s = count_status SKIPPED (results s)
  ∧ successful s + failed s + skipped s = total s.
Proof.
  unfold batch_convert_files. intros Hrun.
  apply batch_loop_effect in Hrun as (Ht & new & Hres & Hlen & Hs & Hf & Hk & _).
  cbn [total successful failed skipped results] in *.
  rewrite app_nil_l in Hres. rewrite Hres.
  pose proof (count_status_total new). repeat split; lia.
Qed.

(** X18. The two modes of the batch.  With [continue_on_error] the loop
    raises no [ConversionError] and returns a summary whenever every
    conversion returns; without it a summary that is returned has no failed
    file: its [failed] counter is zero and no result has the status
    [FAILED]. *)
Theorem batch_continue_on_error (evt_files : list string) (w : World) :
  (∀ msg, (batch_convert_files World Exc convert_file true evt_files w).1
            ≠ RaisedConversionError msg)
  ∧ ((∀ w index n evt_file,
        ∃ result w', convert_file w index n evt_file = (inl result, w')) →
     ∃ s w', batch_convert_files World Exc convert_file true evt_files w
               = (Returned s, w'))
  ∧ (∀ s w', batch_convert_files World Exc convert_file false evt_files w
               = (Returned s, w') →
       failed s = 0 ∧ Forall (fun r => status r ≠ FAILED) (results s)).
Proof.
  unfold batch_convert_files. split; [|split].
  - intros msg. apply batch_loop_continues.
  - intros Hconv. by apply batch_loop_returns.
  - intros s w' Hrun.
    apply batch_loop_effect in Hrun as (_ & new & Hres & _ & _ & Hf & _ & Hno).
    cbn [failed results] in *. rewrite app_nil_l in Hres. rewrite Hres.
    specialize (Hno eq_refl). split; [|done].
    rewrite Hf. clear -Hno. induction Hno as [|r rs Hr _ IH]; [done|].
    rewrite count_status_snoc_l. by rewrite decide_False.
Qed.

End batch_facts.

Lemma batch_summary_counts_witness :
  ∃ s, converter.batch_convert_files unit Empty_set sample_convert_file true
         ["a.evt"; "locked.evt"; "done.evt"; "b.evt"] () = (converter.Returned s, ())
     ∧ converter.total s = 4 ∧ converter.successful s = 2
     ∧ converter.failed s = 1 ∧ converter.skipped s = 1.
Proof.
  edestruct (batch_summary_counts sample_convert_file true
               ["a.evt"; "locked.evt"; "done.evt"; "b.evt"] () ())
    as (Ht & _ & Hs & Hf & Hk & _); [vm_compute; reflexivity|].
  eexists. split; [vm_compute; reflexivity|].
  rewrite Ht, Hs, Hf, Hk. vm_compute. repeat split; reflexivity.
Defined.

Lemma batch_continue_on_error_witness :
  (∃ s w', converter.batch_convert_files unit Empty_set sample_convert_file true
             ["a.evt"; "locked.evt"] () = (converter.Returned s, w'))
  ∧ (∀ s w', converter.batch_convert_files unit Empty_set sample_convert_file false
               ["a.evt"; "done.evt"] () = (converter.Returned s, w') →
       converter.failed s = 0).
Proof.
  destruct (batch_continue_on_error sample_convert_file ["a.evt"; "locked.evt"] ())
    as (_ & H & _).
  split.
  - apply H. intros w index n evt_file. eexists _, _. reflexivity.
  - intros s w' Hrun.
    apply (batch_continue_on_error sample_convert_file ["a.evt"; "done.evt"] ()) in Hrun.
    apply Hrun.
Defined.
